(** * The xv6 shell [user/my_shell.c]: command parser and executor

    The line buffer is a list of bytes, a [char*] is an offset into it, and
    the parser mutates the buffer in place exactly as the C code does (it
    overwrites separators by NUL).  Both the parser and the executor run
    inside one process, whose interaction with the kernel (exec, fork, exit,
    ...) is a tree of calls; [exit] has no continuation. *)

From Stdlib Require Import ZArith Ascii String List Lia Bool.
From stdpp Require Import base tactics option list.

(** ** Constants of the source *)

(** [#define NULL 0], as the byte the source compares characters with; a null
    pointer is [None]. *)
Definition NULL : ascii := "000"%char.
Definition BUFFER_SIZE : nat := 128.
Definition MAXIMUM_ARGUMENTS : nat := 16.

(** [char whitespace[6] = " \t\r\n\v"]: five separators and the terminator. *)
Definition whitespace : list ascii :=
  [" "; "009"; "013"; "010"; "011"; "000"]%char.

(** Characters of a literal, without terminator. *)
Definition chars (s : string) : list ascii := list_ascii_of_string s.

Definition newline : list ascii := ["010"%char].

(** ** Library routines of [user/ulib.c] and flags of [kernel/fcntl.h] *)

Module Ulib.

(** Modelled from the spec: [strlen] of user/ulib.c is not among the sources.
    It counts the bytes before the first terminator ("until ... input is
    exhausted"); [s] is the sequence of bytes the pointer refers to. *)
Fixpoint strlen (s : list ascii) : nat :=
  match s with
  | [] => 0
  | c :: s' => if Ascii.eqb c NULL then 0 else S (strlen s')
  end.

(** Modelled from the spec: [strchr] of user/ulib.c is not among the sources.
    It yields the offset of the first occurrence of [c] before the terminator
    ("split the line at the first occurrence"), and nothing when there is
    none; the terminator itself is never found, so that the end of the input
    is not one of the "separator characters (space, tab, carriage return,
    newline, vertical tab)". *)
Fixpoint strchr (s : list ascii) (c : ascii) : option nat :=
  match s with
  | [] => None
  | x :: s' =>
      if Ascii.eqb x NULL then None
      else if Ascii.eqb x c then Some 0
      else S <$> strchr s' c
  end.

End Ulib.

Module Fcntl.

(** Modelled from the spec: kernel/fcntl.h is not among the sources.  The
    spec distinguishes "read-only", "write", "create" and "truncate"; the
    values are those of xv6's header. *)
Definition O_RDONLY : Z := 0x000.
Definition O_WRONLY : Z := 0x001.
Definition O_RDWR : Z := 0x002.
Definition O_CREATE : Z := 0x200.
Definition O_TRUNC : Z := 0x400.

End Fcntl.

Import Ulib Fcntl.

(** ** The command tree *)

(** [enum CommandType] with the four structs that share its prefix.  The
    strings of a node are pointers into the line buffer; an empty [argv]
    slot is a null pointer. *)
Inductive Command : Type :=
| ExecuteCommand (argv : list (option nat))
| ListCommand (p_left_command p_right_command : Command)
| PipeCommand (p_left_command p_right_command : Command)
| RedirectionCommand (p_command : Command) (p_file_name : nat)
    (file_mode file_descriptor : Z).

(** ** The process *)

(** Memory of the process: the line buffer, and the stores the parser made
    through [argv[i]] with [i] outside the array (they land behind the
    [ExecuteCommand] object). *)
Record state : Type := State {
  memory : list ascii;
  stray : list (nat * nat)
}.

(** Calls that leave the program, each with the type of its answer.  [Pipe]
    answers its return value and the two descriptors it stored. *)
Inductive call : Type -> Type :=
| Exec (path : list ascii) (argv : list (list ascii)) : call Z
| Fprintf (fd : Z) (output : list ascii) : call Z
| Fork : call Z
| Wait : call Z
| Pipe : call (Z * (Z * Z))
| Close (fd : Z) : call Z
| Dup (fd : Z) : call Z
| Open (path : list ascii) (mode : Z) : call Z.

(** What a piece of code does: it returns, it ends the process with a
    status, or it makes a call and goes on with the answer. *)
Inductive proc (A : Type) : Type :=
| Ret (a : A)
| Exit (status : Z)
| Call (R : Type) (c : call R) (k : R -> proc A).

Arguments Ret {A} a.
Arguments Exit {A} status.
Arguments Call {A R} c k.

Fixpoint proc_bind {A B} (m : proc A) (f : A -> proc B) : proc B :=
  match m with
  | Ret a => f a
  | Exit status => Exit status
  | Call c k => Call c (fun r => proc_bind (k r) f)
  end.

(** Code of the shell: a process step over the memory. *)
Definition M (A : Type) : Type := state -> proc (A * state).

Definition ret {A} (a : A) : M A := fun s => Ret (a, s).

Definition bind {A B} (m : M A) (f : A -> M B) : M B :=
  fun s => proc_bind (m s) (fun r => f (fst r) (snd r)).

Declare Scope shell_scope.
Delimit Scope shell_scope with shell.
Notation "x <- m ;; k" := (bind m (fun x => k))
  (at level 100, m at next level, right associativity) : shell_scope.
Notation "m ;; k" := (bind m (fun _ => k))
  (at level 100, right associativity) : shell_scope.
Open Scope shell_scope.

Definition gets {A} (f : state -> A) : M A := fun s => Ret (f s, s).

Definition do_call {R} (c : call R) : M R := fun s => Call c (fun r => Ret (r, s)).

(** [exit(status)] does not return. *)
Definition exit {A} (status : Z) : M A := fun _ => Exit status.

(** *** Memory accesses *)

(** The bytes a [char*] refers to. *)
Definition string_at (m : list ascii) (p : nat) : list ascii := drop p m.

(** [p[0]]; nothing of the buffer lies behind its end. *)
Definition byte_at (m : list ascii) (p : nat) : ascii := default NULL (m !! p).

Definition load (p : nat) : M ascii := gets (fun s => byte_at (memory s) p).

(** [p[0] = c]. *)
Definition store (p : nat) (c : ascii) : M unit :=
  fun s => Ret (tt, State (<[p := c]> (memory s)) (stray s)).

(** The string a [char*] refers to, as [%s] and the kernel read it. *)
Definition cstring (m : list ascii) (p : nat) : list ascii :=
  take (strlen (string_at m p)) (string_at m p).

(** [strchr(whitespace, c) != NULL]. *)
Definition is_whitespace (c : ascii) : bool :=
  match strchr whitespace c with Some _ => true | None => false end.

(** [strchr(buffer, c)] as a pointer. *)
Definition strchr_at (buffer : nat) (c : ascii) : M (option nat) :=
  gets (fun s => (fun i => buffer + i) <$> strchr (string_at (memory s) buffer) c).

(** ** Source functions *)

(** [fprintf(fd, format, ...)], with the text already formatted. *)
Definition fprintf (fd : Z) (output : list ascii) : M Z := do_call (Fprintf fd output).

(** [error]: lines 21-26. *)
Definition error {A} (message : list ascii) : M A :=
  fprintf 2 (message ++ newline) ;;
  exit 1.

(** [safe_fork]: lines 32-42. *)
Definition safe_fork : M Z :=
  process_id <- do_call Fork ;;
  if (process_id =? -1)%Z then error (chars "Failed fork")
  else ret process_id.

(** [strrchr]: lines 48-57.  [k] is [p_s_end - s], counted down to 0. *)
Fixpoint strrchr_from (m : list ascii) (s : nat) (k : nat) (c : ascii) : option nat :=
  if Ascii.eqb (byte_at m (s + k)) c then Some (s + k)
  else match k with
       | 0 => None
       | S k' => strrchr_from m s k' c
       end.

Definition strrchr (s : nat) (c : ascii) : M (option nat) :=
  gets (fun st => strrchr_from (memory st) s (strlen (string_at (memory st) s)) c).

(** [create_execute_command]: lines 104-113; [memset] leaves every slot null. *)
Definition create_execute_command : list (option nat) :=
  replicate MAXIMUM_ARGUMENTS None.

Definition create_list_command (p_left_command p_right_command : Command) : Command :=
  ListCommand p_left_command p_right_command.

Definition create_pipe_command (p_left_command p_right_command : Command) : Command :=
  PipeCommand p_left_command p_right_command.

Definition create_redirection_command (p_command : Command) (p_file_name : nat)
    (file_mode file_descriptor : Z) : Command :=
  RedirectionCommand p_command p_file_name file_mode file_descriptor.

(** The arguments the kernel reads from [argv]: the strings of the slots
    before the first null one. *)
Fixpoint arguments (m : list ascii) (argv : list (option nat)) : list (list ascii) :=
  match argv with
  | Some p :: argv' => cstring m p :: arguments m argv'
  | _ => []
  end.

Definition exec (path : nat) (argv : list (option nat)) : M Z :=
  fun s => do_call (Exec (cstring (memory s) path) (arguments (memory s) argv)) s.

Definition open (p_file_name : nat) (file_mode : Z) : M Z :=
  fun s => do_call (Open (cstring (memory s) p_file_name) file_mode) s.

(** The text [%s] prints for a pointer. *)
Definition format_s (p : nat) : M (list ascii) := gets (fun s => cstring (memory s) p).

(** [run_command]: lines 174-272.  It is declared [noreturn]: every path
    ends in [exit] or in a recursive call, so the [break] after a recursive
    call is never reached.  A tree built by the parser has no null node and
    no other tag, so the two guards for those have no counterpart. *)
Fixpoint run_command (command : Command) : M Empty_set :=
  match command with
  | ExecuteCommand argv =>
      match argv !! 0 with
      | Some (Some argv0) =>
          exec argv0 argv ;;
          name <- format_s argv0 ;;
          fprintf 2 (chars "Failed to execute " ++ name ++ newline) ;;
          exit 0
      | _ => exit 1
      end
  | ListCommand p_left_command p_right_command =>
      process_id <- safe_fork ;;
      if (process_id =? 0)%Z then run_command p_left_command
      else
        do_call Wait ;;
        run_command p_right_command
  | PipeCommand p_left_command p_right_command =>
      opened <- do_call Pipe ;;
      let command_communication_pipe0 := fst (snd opened) in
      let command_communication_pipe1 := snd (snd opened) in
      if (fst opened <? 0)%Z then error (chars "Failed to open pipe")
      else
        process_id <- safe_fork ;;
        if (process_id =? 0)%Z then
          do_call (Close 1) ;;
          do_call (Dup command_communication_pipe1) ;;
          do_call (Close command_communication_pipe0) ;;
          do_call (Close command_communication_pipe1) ;;
          run_command p_left_command
        else
          process_id <- safe_fork ;;
          if (process_id =? 0)%Z then
            do_call (Close 0) ;;
            do_call (Dup command_communication_pipe0) ;;
            do_call (Close command_communication_pipe0) ;;
            do_call (Close command_communication_pipe1) ;;
            run_command p_right_command
          else
            do_call (Close command_communication_pipe0) ;;
            do_call (Close command_communication_pipe1) ;;
            do_call Wait ;;
            do_call Wait ;;
            exit 0
  | RedirectionCommand p_command p_file_name file_mode file_descriptor =>
      do_call (Close file_descriptor) ;;
      opened <- open p_file_name file_mode ;;
      if (opened <? 0)%Z then
        name <- format_s p_file_name ;;
        fprintf 2 (chars "Failed to open file " ++ name ++ newline) ;;
        exit 1
      else run_command p_command
  end.

(** [while (strchr(whitespace, buffer[0]) != NULL) buffer++]: the number of
    separators the bytes at [buffer] start with. *)
Fixpoint count_whitespace (s : list ascii) : nat :=
  match s with
  | c :: s' => if is_whitespace c then S (count_whitespace s') else 0
  | [] => 0
  end.

Definition skip_whitespace (buffer : nat) : M nat :=
  gets (fun s => buffer + count_whitespace (string_at (memory s) buffer)).

(** [while (strchr(whitespace, *buffer) == NULL && *buffer != NULL) buffer++]:
    the length of the token the bytes at [buffer] start with. *)
Fixpoint count_token (s : list ascii) : nat :=
  match s with
  | c :: s' =>
      if negb (is_whitespace c) && negb (Ascii.eqb c NULL) then S (count_token s') else 0
  | [] => 0
  end.

Definition skip_token (buffer : nat) : M nat :=
  gets (fun s => buffer + count_token (string_at (memory s) buffer)).

(** [p_command->argv[argi] = buffer]: a store into the array of
    [MAXIMUM_ARGUMENTS] slots, or behind it. *)
Definition set_argv (argv : list (option nat)) (argi buffer : nat) : M (list (option nat)) :=
  fun s =>
    if argi <? MAXIMUM_ARGUMENTS then Ret (<[argi := Some buffer]> argv, s)
    else Ret (argv, State (memory s) (stray s ++ [(argi, buffer)])).

(** The loop of [parse_execute], lines 360-388.  Every iteration moves
    [buffer] over at least one byte of the string, so [strlen] of the string
    bounds the iterations; at an empty string the loop returns. *)
Fixpoint parse_execute_loop (n : nat) (argv : list (option nat)) (argi buffer : nat)
    : M (list (option nat)) :=
  match n with
  | 0 => ret argv
  | S n =>
      if argi <? MAXIMUM_ARGUMENTS then
        c <- load buffer ;;
        if Ascii.eqb c NULL then ret argv
        else if is_whitespace c then
          store buffer NULL ;;
          let buffer := S buffer in
          let argi := S argi in
          buffer <- skip_whitespace buffer ;;
          c <- load buffer ;;
          if Ascii.eqb c NULL then ret argv
          else
            argv <- set_argv argv argi buffer ;;
            parse_execute_loop n argv argi buffer
        else parse_execute_loop n argv argi (S buffer)
      else ret argv
  end.

(** [parse_execute]: lines 342-391. *)
Definition parse_execute (buffer : nat) : M Command :=
  buffer <- skip_whitespace buffer ;;
  let p_command := create_execute_command in
  c <- load buffer ;;
  if Ascii.eqb c NULL then ret (ExecuteCommand p_command)
  else
    let argi := 0 in
    argv <- set_argv p_command argi buffer ;;
    n <- gets (fun s => strlen (string_at (memory s) buffer)) ;;
    argv <- parse_execute_loop n argv argi buffer ;;
    ret (ExecuteCommand argv).

(** [parse_redirection_file_name]: lines 458-476. *)
Definition parse_redirection_file_name (buffer : nat) : M nat :=
  buffer <- skip_whitespace buffer ;;
  let output := buffer in
  buffer <- skip_token buffer ;;
  store buffer NULL ;;
  c <- load output ;;
  if Ascii.eqb c NULL then error (chars "Failed to parse filename for redirection")
  else ret output.

(** The parsing functions call each other; [parse_command] stands for the
    recursive call. *)
Section bodies.

Variable parse_command : nat -> M Command.

(** [parse_list]: lines 393-408. *)
Definition parse_list_body (buffer p_split : nat) : M Command :=
  store (buffer + (p_split - buffer)) NULL ;;
  p_left_command <- parse_command buffer ;;
  p_right_command <- parse_command (buffer + (p_split - buffer + 1)) ;;
  ret (create_list_command p_left_command p_right_command).

(** [parse_pipe]: lines 410-425. *)
Definition parse_pipe_body (buffer p_split : nat) : M Command :=
  store (buffer + (p_split - buffer)) NULL ;;
  p_left_command <- parse_command buffer ;;
  p_right_command <- parse_command (buffer + (p_split - buffer + 1)) ;;
  ret (create_pipe_command p_left_command p_right_command).

(** [parse_redirection]: lines 427-456. *)
Definition parse_redirection_body (buffer p_split : nat) : M Command :=
  direction <- load (buffer + (p_split - buffer)) ;;
  store (buffer + (p_split - buffer)) NULL ;;
  p_redirection_command <- parse_command buffer ;;
  let p_redirection_file_name := buffer + (p_split - buffer + 1) in
  p_redirection_file_name <- parse_redirection_file_name p_redirection_file_name ;;
  if Ascii.eqb direction "<" then
    ret (create_redirection_command
           p_redirection_command p_redirection_file_name O_RDONLY 0)
  else
    ret (create_redirection_command
           p_redirection_command p_redirection_file_name (Z.lor O_WRONLY O_CREATE) 1).

(** [parse_command]: lines 287-340. *)
Definition parse_command_body (buffer : nat) : M Command :=
  semicolon <- strchr_at buffer ";" ;;
  match semicolon with
  | Some p_split => parse_list_body buffer p_split
  | None =>
      bar <- strchr_at buffer "|" ;;
      match bar with
      | Some p_split => parse_pipe_body buffer p_split
      | None =>
          p_redirection_right <- strrchr buffer ">" ;;
          p_redirection_left <- strrchr buffer "<" ;;
          match p_redirection_right, p_redirection_left with
          | Some p_split, None => parse_redirection_body buffer p_split
          | None, Some p_split => parse_redirection_body buffer p_split
          | Some p_right, Some p_left =>
              if p_right <? p_left then parse_redirection_body buffer p_left
              else parse_redirection_body buffer p_right
          | None, None => parse_execute buffer
          end
      end
  end.

End bodies.

(** The recursion of [parse_command] is on ever shorter strings: a split
    overwrites a byte of the string by the terminator, the left part ends
    there and the right part starts behind it.  [n] bounds the length of the
    string at [buffer]; a string of length 0 holds no operator and is handed
    to [parse_execute]. *)
Fixpoint parse_command_upto (n : nat) (buffer : nat) : M Command :=
  match n with
  | 0 => parse_execute buffer
  | S n => parse_command_body (parse_command_upto n) buffer
  end.

Definition parse_command (buffer : nat) : M Command :=
  fun s => parse_command_upto (strlen (string_at (memory s) buffer)) buffer s.

Definition parse_list : nat -> nat -> M Command := parse_list_body parse_command.
Definition parse_pipe : nat -> nat -> M Command := parse_pipe_body parse_command.
Definition parse_redirection : nat -> nat -> M Command := parse_redirection_body parse_command.

(** Line 570 of [main], in the child: [run_command(parse_command(buffer))]. *)
Definition run_line (buffer : nat) : M Empty_set :=
  command <- parse_command buffer ;;
  run_command command.

(** ** Reading a result *)

(** The buffer [main] hands to the parser: the line and its terminator. *)
Definition line_state (line : list ascii) : state := State (line ++ [NULL]) [].

(** A command tree with its strings read from the buffer. *)
Inductive tree : Type :=
| Execute (args : list (list ascii))
| Sequence (left right : tree)
| Piped (left right : tree)
| Redirect (inner : tree) (file_name : list ascii) (file_mode file_descriptor : Z).

Fixpoint view (m : list ascii) (command : Command) : tree :=
  match command with
  | ExecuteCommand argv => Execute (arguments m argv)
  | ListCommand l r => Sequence (view m l) (view m r)
  | PipeCommand l r => Piped (view m l) (view m r)
  | RedirectionCommand c f mode fd => Redirect (view m c) (cstring m f) mode fd
  end.

(** The tree a process returns, if it returns one. *)
Definition parsed (r : proc (Command * state)) : option tree :=
  match r with
  | Ret (c, s) => Some (view (memory s) c)
  | _ => None
  end.



(** ** Specification-side notions *)

(** A character of a token: neither a separator nor the terminator. *)
Definition token_char (c : ascii) : Prop := is_whitespace c = false ∧ c ≠ NULL.

(** The four operator characters of the grammar, and a text without any. *)
Definition operator (c : ascii) : Prop :=
  (c = ";" ∨ c = "|" ∨ c = ">" ∨ c = "<")%char.

Definition plain (t : list ascii) : Prop := ∀ c, c ∈ t → ¬ operator c.

(** First and last occurrence of a character in a text. *)
Definition first_at (t : list ascii) (c : ascii) (i : nat) : Prop :=
  t !! i = Some c ∧ ∀ j, j < i → t !! j ≠ Some c.

Definition last_at (t : list ascii) (c : ascii) (i : nat) : Prop :=
  t !! i = Some c ∧ ∀ j, i < j → t !! j ≠ Some c.

(** A text as [parse_execute] reads it behind the leading separators:
    tokens, each with the separators that follow it.  Only the last token may
    have none. *)
Fixpoint flat (items : list (list ascii * list ascii)) : list ascii :=
  match items with
  | [] => []
  | (t, w) :: r => t ++ w ++ flat r
  end.

Fixpoint tokens_ok (items : list (list ascii * list ascii)) : Prop :=
  match items with
  | [] => True
  | (t, w) :: r =>
      t ≠ [] ∧ Forall token_char t ∧ Forall (λ c, is_whitespace c = true) w ∧
      (r ≠ [] → w ≠ []) ∧ tokens_ok r
  end.

(** The same text once the first [k] tokens are terminated: the first
    separator behind each of them is overwritten. *)
Definition terminate (w : list ascii) : list ascii :=
  match w with
  | [] => []
  | _ :: w' => NULL :: w'
  end.

Fixpoint terminated (k : nat) (items : list (list ascii * list ascii)) : list ascii :=
  match k, items with
  | S k', (t, w) :: r => t ++ terminate w ++ terminated k' r
  | _, _ => flat items
  end.

(** Where the tokens start, for a text at offset [off]. *)
Fixpoint starts (off : nat) (items : list (list ascii * list ascii)) : list nat :=
  match items with
  | [] => []
  | (t, w) :: r => off :: starts (off + length t + length w) r
  end.

(** The array [argv] that holds the pointers [ptrs], as far as it has
    room, and the store behind the array for the pointer that comes next. *)
Definition slots (ptrs : list nat) : list (option nat) :=
  map Some (take MAXIMUM_ARGUMENTS ptrs) ++
  replicate (MAXIMUM_ARGUMENTS - length ptrs) None.

Definition overflow (ptrs : list nat) : list (nat * nat) :=
  match ptrs !! MAXIMUM_ARGUMENTS with
  | Some p => [(MAXIMUM_ARGUMENTS, p)]
  | None => []
  end.

(** What a fatal error of the shell does, whatever the memory: the message
    and a line feed on descriptor 2, then [exit(1)]. *)
Definition fatal {A} (message : list ascii) : proc A :=
  Call (Fprintf 2 (message ++ newline)) (fun _ => Exit 1).

(** [s'] differs from [s] at most inside the string at [p]: the bytes before
    [p], the terminator of the string and everything behind it are the same. *)
Definition within (m m' : list ascii) (p : nat) : Prop :=
  length m' = length m ∧
  ∀ q, q < p ∨ p + strlen (string_at m p) ≤ q → m' !! q = m !! q.

(** A parsing step returns with the buffer changed inside the string only, or
    stops the process with the one fatal error of the parser. *)
Definition parses {A} (r : proc (A * state)) (s : state) (p : nat) : Prop :=
  (∃ a s', r = Ret (a, s') ∧ within (memory s) (memory s') p) ∨
  r = fatal (chars "Failed to parse filename for redirection").

(** ** The caller's preparation of the line *)

(** Modelled from the spec: [memcpy] of user/ulib.c is not among the sources.
    It copies [n] bytes from [src] to [dst], the byte at the lowest address
    first, as xv6's does when [dst] lies below [src]; the caller uses it to
    move a string one byte down, by which the line has its "leading whitespace
    already trimmed by the caller". *)
Fixpoint memcpy_bytes (m : list ascii) (dst src n : nat) : list ascii :=
  match n with
  | 0 => m
  | S n => memcpy_bytes (<[dst := byte_at m src]> m) (S dst) (S src) n
  end.

Definition memcpy (dst src n : nat) : M unit :=
  fun s => Ret (tt, State (memcpy_bytes (memory s) dst src n) (stray s)).

(** The loop of [remove_prefixed_whitespace_buffer], lines 521-524.  Every
    iteration makes the string one byte shorter, so [strlen] of the string
    bounds the iterations; at an empty string the loop returns. *)
Fixpoint remove_prefixed_whitespace_buffer_loop (n buffer : nat) : M unit :=
  match n with
  | 0 => ret tt
  | S n =>
      c <- load buffer ;;
      if is_whitespace c then
        len <- gets (fun s => strlen (string_at (memory s) buffer)) ;;
        memcpy buffer (buffer + 1) len ;;
        remove_prefixed_whitespace_buffer_loop n buffer
      else ret tt
  end.

(** [remove_prefixed_whitespace_buffer]: lines 518-525. *)
Definition remove_prefixed_whitespace_buffer (buffer : nat) : M unit :=
  n <- gets (fun s => strlen (string_at (memory s) buffer)) ;;
  remove_prefixed_whitespace_buffer_loop n buffer.

(** [terminate_buffer]: lines 530-534.  The index [strlen(buffer) - 1] is
    computed in the type of [strlen], which xv6's user/user.h (not among the
    sources) declares as [uint]: 32 bits without sign, so that for an empty
    string it is 4294967295 and not -1. *)
Definition terminate_buffer (buffer : nat) : M unit :=
  len <- gets (fun s => strlen (string_at (memory s) buffer)) ;;
  store (buffer + Z.to_nat ((Z.of_nat len - 1) mod 2 ^ 32)) NULL.

(** Lines 551-552 of [main]: the line is prepared for the parser. *)
Definition prepare (buffer : nat) : M unit :=
  remove_prefixed_whitespace_buffer buffer ;;
  terminate_buffer buffer.

(** ** Processes, path by path *)

(** Every call on every path satisfies [P] and every exit status [Q],
    whatever the answers to the calls. *)
Inductive on_all_paths {A} (P : ∀ R, call R → Prop) (Q : Z → Prop) : proc A → Prop :=
| paths_ret a : on_all_paths P Q (Ret a)
| paths_exit status : Q status → on_all_paths P Q (Exit status)
| paths_call R (c : call R) k :
    P R c → (∀ r, on_all_paths P Q (k r)) → on_all_paths P Q (Call c k).

Definition is_fork {R} (c : call R) : Prop :=
  match c with Fork => True | _ => False end.

Definition is_open {R} (c : call R) : Prop :=
  match c with Open _ _ => True | _ => False end.

(** The nodes of a command. *)
Fixpoint has_fork_node (command : Command) : Prop :=
  match command with
  | ExecuteCommand _ => False
  | ListCommand _ _ | PipeCommand _ _ => True
  | RedirectionCommand c _ _ _ => has_fork_node c
  end.

Fixpoint has_redirection_node (command : Command) : Prop :=
  match command with
  | ExecuteCommand _ => False
  | ListCommand l r | PipeCommand l r => has_redirection_node l ∨ has_redirection_node r
  | RedirectionCommand _ _ _ _ => True
  end.


(** ** The parser and the executor on texts *)

(** The tokens of a text without terminator: its maximal runs of characters
    that are not separators. *)
Fixpoint tokens (s : list ascii) : list (list ascii) :=
  match s with
  | [] => []
  | c :: s' =>
      if is_whitespace c then tokens s'
      else if match s' with c' :: _ => is_whitespace c' | [] => true end
           then [c] :: tokens s'
           else match tokens s' with
                | t :: ts => (c :: t) :: ts
                | [] => [[c]]
                end
  end.

Fixpoint first_index (c : ascii) (t : list ascii) : option nat :=
  match t with
  | [] => None
  | x :: t' => if Ascii.eqb x c then Some 0 else S <$> first_index c t'
  end.

Fixpoint last_index (c : ascii) (t : list ascii) : option nat :=
  match t with
  | [] => None
  | x :: t' =>
      match last_index c t' with
      | Some i => Some (S i)
      | None => if Ascii.eqb x c then Some 0 else None
      end
  end.

(** Where a text with a redirection and without ';' and '|' is split. *)
Definition redirection_index (text : list ascii) : option nat :=
  match last_index ">" text, last_index "<" text with
  | Some r, Some l => Some (r `max` l)
  | Some r, None => Some r
  | None, Some l => Some l
  | None, None => None
  end.

(** The tree of a text, by recursive descent on the text itself; [None] is
    the missing file name.  [n] bounds the length of the text. *)
Fixpoint parse_text (n : nat) (text : list ascii) : option tree :=
  match n with
  | 0 => Some (Execute (take MAXIMUM_ARGUMENTS (tokens text)))
  | S n =>
      match first_index ";" text with
      | Some i =>
          match parse_text n (take i text) with
          | Some l =>
              match parse_text n (drop (S i) text) with
              | Some r => Some (Sequence l r)
              | None => None
              end
          | None => None
          end
      | None =>
          match first_index "|" text with
          | Some i =>
              match parse_text n (take i text) with
              | Some l =>
                  match parse_text n (drop (S i) text) with
                  | Some r => Some (Piped l r)
                  | None => None
                  end
              | None => None
              end
          | None =>
              match redirection_index text with
              | Some i =>
                  match parse_text n (take i text) with
                  | Some inner =>
                      match tokens (drop (S i) text) with
                      | file :: _ =>
                          if Ascii.eqb (byte_at text i) "<"
                          then Some (Redirect inner file O_RDONLY 0)
                          else Some (Redirect inner file (Z.lor O_WRONLY O_CREATE) 1)
                      | [] => None
                      end
                  | None => None
                  end
              | None => Some (Execute (take MAXIMUM_ARGUMENTS (tokens text)))
              end
          end
      end
  end.

Definition parse_line (line : list ascii) : option tree :=
  parse_text (length line) line.


(** A parsing step on the text [text] at offset [length pre] does what the
    tree [spec] of the text says: without tree it is the fatal error; with a
    tree it returns a node, has changed the buffer inside the text only, and
    the node with its strings read from the buffer (wherever the text lies)
    is that tree. *)
Definition refines (r : proc (Command * state)) (pre text rest : list ascii)
    (spec : option tree) : Prop :=
  match spec with
  | None => r = fatal (chars "Failed to parse filename for redirection")
  | Some t =>
      ∃ command text' st',
        r = Ret (command, State (pre ++ text' ++ NULL :: rest) st') ∧
        length text' = length text ∧
        ∀ pre2 rest2,
          length pre2 = length pre → view (pre2 ++ text' ++ NULL :: rest2) command = t
  end.

(** ** Bytes and strings *)

Arguments is_whitespace : simpl never.
Arguments Ascii.eqb : simpl never.

Ltac run :=
  cbv beta delta [bind load store gets ret skip_whitespace skip_token strchr_at strrchr];
  cbn [proc_bind fst snd memory stray].

Lemma eqb_NULL_true c : Ascii.eqb c NULL = true ↔ c = NULL.
Proof. apply Ascii.eqb_eq. Qed.

Lemma eqb_NULL_false c : Ascii.eqb c NULL = false ↔ c ≠ NULL.
Proof. apply Ascii.eqb_neq. Qed.

Lemma is_whitespace_NULL_false : is_whitespace NULL = false.
Proof. done. Qed.

(** The separators are the five characters of [whitespace]. *)
Lemma is_whitespace_spec c :
  is_whitespace c = true ↔ c ∈ [" "; "009"; "013"; "010"; "011"]%char.
Proof.
  split.
  - destruct c as [[] [] [] [] [] [] [] []]; intros H; try discriminate H;
      repeat first [apply list_elem_of_here | apply list_elem_of_further].
  - intros H. repeat (apply elem_of_cons in H as [->|H]; [done|]).
    by apply elem_of_nil in H.
Qed.

Lemma whitespace_not_NULL c : is_whitespace c = true → c ≠ NULL.
Proof. intros H ->. discriminate H. Qed.

Lemma token_char_eqb c : token_char c → Ascii.eqb c NULL = false ∧ is_whitespace c = false.
Proof. intros [H1 H2]. split; [by apply eqb_NULL_false | done]. Qed.

Lemma byte_at_cons c m : byte_at (c :: m) 0 = c.
Proof. done. Qed.

Lemma byte_at_middle pre c suf : byte_at (pre ++ c :: suf) (length pre) = c.
Proof. unfold byte_at. by rewrite list_lookup_middle. Qed.

Lemma byte_at_end pre : byte_at pre (length pre) = NULL.
Proof. unfold byte_at. by rewrite lookup_ge_None_2. Qed.

Lemma string_at_middle pre suf : string_at (pre ++ suf) (length pre) = suf.
Proof. apply drop_app_length. Qed.

Lemma string_at_unfold m p :
  string_at m p = match m !! p with Some c => c :: string_at m (S p) | None => [] end.
Proof.
  unfold string_at. revert p. induction m as [|x m IH]; intros [|p]; simpl; done.
Qed.

Lemma string_at_plus m p k : string_at m (p + k) = drop k (string_at m p).
Proof. unfold string_at. by rewrite drop_drop. Qed.

Lemma string_at_agree m m' p :
  length m' = length m → (∀ q, p ≤ q → m' !! q = m !! q) →
  string_at m' p = string_at m p.
Proof.
  intros Hl H. unfold string_at. apply list_eq. intros i.
  rewrite !lookup_drop. apply H. lia.
Qed.

Lemma string_at_insert_gt m p q c : q < p → string_at (<[q := c]> m) p = string_at m p.
Proof. intros H. unfold string_at. by rewrite drop_insert_lt. Qed.

Lemma strlen_le_length s : strlen s ≤ length s.
Proof.
  induction s as [|c s IH]; simpl; [lia|]. destruct (Ascii.eqb c NULL); lia.
Qed.

Lemma strlen_lookup s i : i < strlen s → ∃ c, s !! i = Some c ∧ c ≠ NULL.
Proof.
  revert i. induction s as [|x s IH]; simpl; intros i Hi; [lia|].
  destruct (Ascii.eqb x NULL) eqn:E; [lia|].
  destruct i as [|i]; simpl.
  - exists x. split; [done|]. by apply eqb_NULL_false.
  - apply IH. lia.
Qed.

Lemma strlen_end s : byte_at s (strlen s) = NULL.
Proof.
  induction s as [|x s IH]; simpl; [done|].
  destruct (Ascii.eqb x NULL) eqn:E; [|done].
  by apply eqb_NULL_true in E as ->.
Qed.

Lemma strlen_drop s k : k ≤ strlen s → strlen (drop k s) = strlen s - k.
Proof.
  revert k. induction s as [|x s IH]; intros [|k] Hk;
    rewrite ?drop_0, ?Nat.sub_0_r; try done.
  simpl in *. destruct (Ascii.eqb x NULL); [lia|]. apply IH. lia.
Qed.

Lemma strlen_insert s i : i < strlen s → strlen (<[i := NULL]> s) = i.
Proof.
  revert i. induction s as [|x s IH]; simpl; intros i Hi; [lia|].
  destruct (Ascii.eqb x NULL) eqn:E; [lia|].
  destruct i as [|i]; simpl; [done|].
  rewrite E. f_equal. apply IH. lia.
Qed.

Lemma strlen_app t rest : Forall (λ c, c ≠ NULL) t → strlen (t ++ rest) = length t + strlen rest.
Proof.
  induction 1 as [|c t Hc _ IH]; simpl; [done|].
  apply eqb_NULL_false in Hc. rewrite Hc. by rewrite IH.
Qed.

Lemma strlen_zero_byte m p : strlen (string_at m p) = 0 → byte_at m p = NULL.
Proof.
  intros H. pose proof (strlen_end (string_at m p)) as E. rewrite H in E.
  unfold byte_at, string_at in *. by rewrite lookup_drop, Nat.add_0_r in E.
Qed.

Lemma strlen_pos_byte m p : byte_at m p ≠ NULL → 0 < strlen (string_at m p).
Proof.
  intros H. destruct (strlen (string_at m p)) eqn:E; [|lia].
  by apply strlen_zero_byte in E.
Qed.

(** Moving inside a string does not move its end. *)
Lemma string_end_plus m p k :
  k ≤ strlen (string_at m p) →
  p + k + strlen (string_at m (p + k)) = p + strlen (string_at m p).
Proof. intros H. rewrite string_at_plus, strlen_drop by done. lia. Qed.

Lemma count_whitespace_le s : count_whitespace s ≤ strlen s.
Proof.
  induction s as [|c s IH]; simpl; [lia|].
  destruct (is_whitespace c) eqn:E; [|lia].
  apply whitespace_not_NULL, eqb_NULL_false in E. rewrite E. lia.
Qed.

Lemma count_token_le s : count_token s ≤ strlen s.
Proof.
  induction s as [|c s IH]; simpl; [lia|].
  destruct (is_whitespace c); simpl; [lia|].
  destruct (Ascii.eqb c NULL); simpl; lia.
Qed.

Lemma strlen_string_at_S m p :
  byte_at m p ≠ NULL → strlen (string_at m p) = S (strlen (string_at m (S p))).
Proof.
  intros H. rewrite (string_at_unfold m p). unfold byte_at in H.
  destruct (m !! p) as [c|]; simpl in *; [|done].
  apply eqb_NULL_false in H. by rewrite H.
Qed.

(** ** The parser changes the buffer inside the parsed string only *)

Lemma within_refl m p : within m m p.
Proof. by split. Qed.

Lemma within_store m p q c :
  p ≤ q < p + strlen (string_at m p) → within m (<[q := c]> m) p.
Proof.
  intros H. split; [apply length_insert|].
  intros j Hj. apply list_lookup_insert_ne. lia.
Qed.

Lemma within_trans m m1 m' p p' :
  within m m1 p → within m1 m' p' → p ≤ p' →
  p' + strlen (string_at m1 p') ≤ p + strlen (string_at m p) →
  within m m' p.
Proof.
  intros [L1 H1] [L2 H2] Hp He. split; [congruence|].
  intros q Hq. rewrite H2 by lia. apply H1. lia.
Qed.

Lemma parse_execute_loop_within n :
  ∀ argv argi buffer s,
    ∃ argv' s', parse_execute_loop n argv argi buffer s = Ret (argv', s') ∧
                within (memory s) (memory s') buffer.
Proof.
  induction n as [|n IH]; intros argv argi buffer [m st]; simpl.
  { eexists _, _. split; [done|]. apply within_refl. }
  destruct (argi <? MAXIMUM_ARGUMENTS);
    [|eexists _, _; split; [done|]; apply within_refl].
  run. destruct (Ascii.eqb (byte_at m buffer) NULL) eqn:E0; run.
  { eexists _, _. split; [done|]. apply within_refl. }
  apply eqb_NULL_false in E0. pose proof (strlen_string_at_S _ _ E0) as EL.
  destruct (is_whitespace (byte_at m buffer)) eqn:Ew; run.
  - assert (W1 : within m (<[buffer := NULL]> m) buffer) by (apply within_store; lia).
    set (b' := S buffer + _).
    assert (Hend : b' + strlen (string_at (<[buffer:=NULL]> m) b')
                   = buffer + strlen (string_at m buffer)).
    { subst b'. rewrite !string_at_insert_gt by lia.
      pose proof (count_whitespace_le (string_at m (S buffer))) as Hc.
      rewrite <- (string_end_plus m buffer (S (count_whitespace (string_at m (S buffer)))))
        by lia.
      by replace (buffer + S (count_whitespace (string_at m (S buffer))))
        with (S buffer + count_whitespace (string_at m (S buffer))) by lia. }
    destruct (Ascii.eqb _ NULL); run; [by eexists _, _|].
    unfold set_argv. cbn [memory stray]. destruct (S argi <? MAXIMUM_ARGUMENTS); run.
    + destruct (IH (<[S argi:=Some b']> argv) (S argi) b' (State (<[buffer:=NULL]> m) st))
        as (argv' & s' & -> & W).
      eexists _, _. split; [done|]. cbn [memory] in W.
      eapply within_trans; [exact W1|exact W| |]; subst b'; lia.
    + destruct (IH argv (S argi) b'
                  (State (<[buffer:=NULL]> m) (st ++ [(S argi, b')])))
        as (argv' & s' & -> & W).
      eexists _, _. split; [done|]. cbn [memory] in W.
      eapply within_trans; [exact W1|exact W| |]; subst b'; lia.
  - destruct (IH argv argi (S buffer) (State m st)) as (argv' & s' & -> & W).
    eexists _, _. split; [done|]. cbn [memory] in W.
    eapply within_trans; [apply within_refl|exact W| |]; lia.
Qed.

(** The bound of the loop does not matter once it covers the string. *)
Lemma parse_execute_loop_stable n :
  ∀ n' argv argi buffer s,
    strlen (string_at (memory s) buffer) ≤ n →
    strlen (string_at (memory s) buffer) ≤ n' →
    parse_execute_loop n argv argi buffer s = parse_execute_loop n' argv argi buffer s.
Proof.
  assert (Hz : ∀ k argv argi buffer s,
             strlen (string_at (memory s) buffer) = 0 →
             parse_execute_loop k argv argi buffer s = Ret (argv, s)).
  { intros [|k] argv argi buffer s H; [done|]. cbn [parse_execute_loop].
    destruct (argi <? MAXIMUM_ARGUMENTS); [|done]. run.
    by rewrite strlen_zero_byte. }
  induction n as [|n IH]; intros [|n'] argv argi buffer [m st] H H'; cbn [memory] in *.
  - done.
  - rewrite !Hz; [done|cbn [memory]; lia..].
  - rewrite !Hz; [done|cbn [memory]; lia..].
  - cbn [parse_execute_loop]. destruct (argi <? MAXIMUM_ARGUMENTS); [|done]. run.
    destruct (Ascii.eqb (byte_at m buffer) NULL) eqn:E0; [done|].
    apply eqb_NULL_false in E0. pose proof (strlen_string_at_S _ _ E0) as EL.
    destruct (is_whitespace (byte_at m buffer)); run.
    + set (b' := S buffer + _).
      assert (Hend : b' + strlen (string_at (<[buffer:=NULL]> m) b')
                     = buffer + strlen (string_at m buffer)).
      { subst b'. rewrite !string_at_insert_gt by lia.
        pose proof (count_whitespace_le (string_at m (S buffer))) as Hc.
        rewrite <- (string_end_plus m buffer (S (count_whitespace (string_at m (S buffer)))))
          by lia.
        by replace (buffer + S (count_whitespace (string_at m (S buffer))))
          with (S buffer + count_whitespace (string_at m (S buffer))) by lia. }
      destruct (Ascii.eqb _ NULL); [done|].
      unfold set_argv. cbn [memory stray].
      destruct (S argi <? MAXIMUM_ARGUMENTS); run;
        (apply IH; cbn [memory]; subst b'; lia).
    + apply IH; cbn [memory]; lia.
Qed.

Lemma parse_execute_within buffer s :
  ∃ argv s', parse_execute buffer s = Ret (ExecuteCommand argv, s') ∧
             within (memory s) (memory s') buffer.
Proof.
  destruct s as [m st]. unfold parse_execute. run.
  destruct (Ascii.eqb _ NULL); run.
  { eexists _, _. split; [done|]. apply within_refl. }
  set (b' := buffer + _). unfold set_argv. cbn [Nat.ltb Nat.leb MAXIMUM_ARGUMENTS]. run.
  edestruct parse_execute_loop_within as (argv' & s' & -> & W). run.
  eexists _, _. split; [done|]. cbn [memory] in W.
  pose proof (count_whitespace_le (string_at m buffer)) as Hc.
  eapply within_trans; [apply within_refl|exact W| |]; subst b'; [lia|].
  by rewrite string_end_plus.
Qed.

Lemma parse_execute_parses buffer s : parses (parse_execute buffer s) s buffer.
Proof.
  destruct (parse_execute_within buffer s) as (argv & s' & E & W).
  left. eauto.
Qed.

Lemma error_fatal {A} message s : @error A message s = fatal message.
Proof. done. Qed.

Lemma parse_redirection_file_name_parses buffer s :
  parses (parse_redirection_file_name buffer s) s buffer.
Proof.
  destruct s as [m st]. unfold parse_redirection_file_name. run.
  set (output := buffer + _). set (e := output + _).
  destruct (Ascii.eqb _ NULL); [by right|]. left. run.
  eexists _, _. split; [done|]. cbn [memory].
  pose proof (count_whitespace_le (string_at m buffer)) as Hc.
  pose proof (count_token_le (string_at m output)) as Ht.
  assert (He : e + strlen (string_at m e) = buffer + strlen (string_at m buffer)).
  { subst e. rewrite string_end_plus by done. subst output. by rewrite string_end_plus. }
  destruct (Ascii.eqb_spec (byte_at m e) NULL) as [E|E].
  - split; [apply length_insert|]. intros q _.
    destruct (decide (q = e)) as [->|]; [|by apply list_lookup_insert_ne].
    unfold byte_at in E. destruct (m !! e) as [c|] eqn:Ec; simpl in E.
    + subst c. rewrite list_lookup_insert_eq; [done|]. by eapply lookup_lt_Some.
    + by apply list_lookup_insert_None.
  - apply within_store. apply strlen_pos_byte in E. subst e output. lia.
Qed.

(** ** Where the operators are found *)

Lemma byte_at_string_at m p k : byte_at (string_at m p) k = byte_at m (p + k).
Proof. unfold byte_at, string_at. by rewrite lookup_drop. Qed.

Lemma strchr_Some s c i :
  strchr s c = Some i →
  i < strlen s ∧ s !! i = Some c ∧ ∀ j, j < i → s !! j ≠ Some c.
Proof.
  revert i. induction s as [|x s IH]; simpl; intros i H; [done|].
  destruct (Ascii.eqb x NULL) eqn:E0; [done|].
  destruct (Ascii.eqb x c) eqn:Ec.
  - injection H as <-. apply Ascii.eqb_eq in Ec as ->.
    split; [lia|]. split; [done|]. intros j Hj. lia.
  - destruct (strchr s c) as [k|] eqn:Ek; [|done]. injection H as <-.
    destruct (IH k eq_refl) as (H1 & H2 & H3).
    split; [lia|]. split; [done|]. intros [|j] Hj; simpl.
    + apply Ascii.eqb_neq in Ec. congruence.
    + apply H3. lia.
Qed.

Lemma strchr_None s c : strchr s c = None → ∀ i, i < strlen s → s !! i ≠ Some c.
Proof.
  induction s as [|x s IH]; simpl; intros H i Hi; [lia|].
  destruct (Ascii.eqb x NULL) eqn:E0; [lia|].
  destruct (Ascii.eqb x c) eqn:Ec; [done|].
  destruct (strchr s c) eqn:Ek; [done|].
  destruct i as [|i]; simpl.
  - apply Ascii.eqb_neq in Ec. congruence.
  - apply IH; [done|lia].
Qed.

Lemma strchr_absent s c :
  (∀ i, i < strlen s → s !! i ≠ Some c) → strchr s c = None.
Proof.
  intros H. destruct (strchr s c) as [i|] eqn:E; [|done].
  apply strchr_Some in E as (H1 & H2 & _). by apply H in H1.
Qed.

Lemma strchr_first s c i :
  i < strlen s → s !! i = Some c → (∀ j, j < i → s !! j ≠ Some c) →
  strchr s c = Some i.
Proof.
  intros Hi Hc Hf. destruct (strchr s c) as [k|] eqn:E.
  - apply strchr_Some in E as (H1 & H2 & H3).
    destruct (Nat.lt_trichotomy k i) as [?|[->|?]]; [|done|].
    + by apply Hf in H2.
    + by apply H3 in Hc.
  - by eapply strchr_None in E.
Qed.

Lemma strrchr_from_Some m s k c q :
  strrchr_from m s k c = Some q → s ≤ q ≤ s + k ∧ byte_at m q = c.
Proof.
  induction k as [|k IH]; simpl; intros H.
  - destruct (Ascii.eqb_spec (byte_at m (s + 0)) c); [|done].
    injection H as <-. split; [lia|done].
  - destruct (Ascii.eqb_spec (byte_at m (s + S k)) c).
    + injection H as <-. split; [lia|done].
    + apply IH in H as [H1 H2]. split; [lia|done].
Qed.

Lemma strrchr_from_None m s k c j :
  strrchr_from m s k c = None → j ≤ k → byte_at m (s + j) ≠ c.
Proof.
  induction k as [|k IH]; simpl; intros H Hj.
  - destruct (Ascii.eqb_spec (byte_at m (s + 0)) c); [done|].
    by replace j with 0 by lia.
  - destruct (Ascii.eqb_spec (byte_at m (s + S k)) c); [done|].
    destruct (decide (j = S k)) as [->|]; [done|]. apply IH; [done|lia].
Qed.

(** The last occurrence, when there is one at or before [s + k]. *)
Lemma strrchr_from_last m s k c i :
  i ≤ k → byte_at m (s + i) = c → (∀ j, i < j ≤ k → byte_at m (s + j) ≠ c) →
  strrchr_from m s k c = Some (s + i).
Proof.
  induction k as [|k IH]; simpl; intros Hi Hc Hl.
  - replace i with 0 in * by lia. by rewrite Hc, Ascii.eqb_refl.
  - destruct (decide (i = S k)) as [->|Hne].
    + by rewrite Hc, Ascii.eqb_refl.
    + destruct (Ascii.eqb_spec (byte_at m (s + S k)) c) as [E|E].
      * exfalso. eapply (Hl (S k)); [lia|done].
      * apply IH; [lia|done|]. intros j Hj. apply Hl. lia.
Qed.

Lemma strrchr_in_string m s c q :
  c ≠ NULL → strrchr_from m s (strlen (string_at m s)) c = Some q →
  s ≤ q < s + strlen (string_at m s).
Proof.
  intros Hc H. apply strrchr_from_Some in H as [H1 H2].
  destruct (decide (q = s + strlen (string_at m s))) as [->|]; [|lia].
  rewrite <- byte_at_string_at, strlen_end in H2. congruence.
Qed.

(** ** Splitting at an operator *)

Lemma split_strlen m b p :
  b ≤ p < b + strlen (string_at m b) →
  strlen (string_at (<[p := NULL]> m) b) = p - b.
Proof.
  intros H. unfold string_at. rewrite drop_insert_ge by lia.
  apply strlen_insert. unfold string_at in H. lia.
Qed.

Lemma split_right m m2 b p :
  b ≤ p < b + strlen (string_at m b) → within (<[p := NULL]> m) m2 b →
  string_at m2 (S p) = string_at m (S p).
Proof.
  intros H [L W]. rewrite <- (string_at_insert_gt m (S p) p NULL) by lia.
  apply string_at_agree; [done|]. intros q Hq. apply W.
  rewrite split_strlen by done. lia.
Qed.

Lemma split_right_strlen m b p :
  b ≤ p < b + strlen (string_at m b) →
  S p + strlen (string_at m (S p)) = b + strlen (string_at m b).
Proof.
  intros H. replace (S p) with (b + (S p - b)) by lia.
  rewrite string_end_plus; [done|lia].
Qed.

Lemma within_split m m2 m3 b p :
  b ≤ p < b + strlen (string_at m b) →
  within (<[p := NULL]> m) m2 b → within m2 m3 (S p) → within m m3 b.
Proof.
  intros H W2 W3.
  assert (W : within m m2 b).
  { eapply within_trans; [by apply within_store|exact W2|lia|].
    rewrite split_strlen by done. lia. }
  eapply within_trans; [exact W|exact W3|lia|].
  rewrite (split_right m m2 b p), (split_right_strlen m b p) by done. lia.
Qed.

Lemma fatal_bind {A B} message (f : A → proc B) :
  proc_bind (fatal message) f = fatal message.
Proof. done. Qed.

(** The branch [parse_command] takes, as the source decides it: the split
    point lies inside the string. *)
Lemma parse_command_body_branch b s :
  (∃ p, b ≤ p < b + strlen (string_at (memory s) b) ∧
        ((∀ rec, parse_command_body rec b s = parse_list_body rec b p s) ∨
         (∀ rec, parse_command_body rec b s = parse_pipe_body rec b p s) ∨
         (∀ rec, parse_command_body rec b s = parse_redirection_body rec b p s))) ∨
  (∀ rec, parse_command_body rec b s = parse_execute b s).
Proof.
  destruct s as [m st]. cbn [memory]. unfold parse_command_body. run.
  destruct (strchr (string_at m b) ";") as [i|] eqn:E1;
    cbn [fmap option_fmap option_map]; run.
  { apply strchr_Some in E1 as (H1 & _). left. exists (b + i). split; [lia|]. by left. }
  destruct (strchr (string_at m b) "|") as [i|] eqn:E2;
    cbn [fmap option_fmap option_map]; run.
  { apply strchr_Some in E2 as (H1 & _). left. exists (b + i). split; [lia|].
    right. by left. }
  destruct (strrchr_from m b _ ">") as [r|] eqn:E3;
    destruct (strrchr_from m b _ "<") as [l|] eqn:E4.
  - apply strrchr_in_string in E3; [|done]. apply strrchr_in_string in E4; [|done].
    left. destruct (r <? l).
    + exists l. split; [done|]. by right; right.
    + exists r. split; [done|]. by right; right.
  - apply strrchr_in_string in E3; [|done].
    left. exists r. split; [done|]. by right; right.
  - apply strrchr_in_string in E4; [|done].
    left. exists l. split; [done|]. by right; right.
  - by right.
Qed.

Section recursion.

Variables rec1 rec2 : nat → M Command.
Variable N : nat.

Hypothesis rec1_parses : ∀ b s, parses (rec1 b s) s b.
Hypothesis rec_agree :
  ∀ b s, strlen (string_at (memory s) b) < N → rec1 b s = rec2 b s.

Lemma parse_list_body_parses b p s :
  b ≤ p < b + strlen (string_at (memory s) b) →
  parses (parse_list_body rec1 b p s) s b.
Proof.
  destruct s as [m st]; cbn [memory]; intros H. unfold parse_list_body. run.
  replace (b + (p - b)) with p by lia. replace (b + (p - b + 1)) with (S p) by lia.
  destruct (rec1_parses b (State (<[p:=NULL]> m) st)) as [(l & s2 & -> & W2)| ->];
    [|by right].
  run. destruct (rec1_parses (S p) s2) as [(r & s3 & -> & W3)| ->]; [|by right].
  left. run. eexists _, _. split; [done|]. by eapply within_split.
Qed.

Lemma parse_pipe_body_parses b p s :
  b ≤ p < b + strlen (string_at (memory s) b) →
  parses (parse_pipe_body rec1 b p s) s b.
Proof.
  destruct s as [m st]; cbn [memory]; intros H. unfold parse_pipe_body. run.
  replace (b + (p - b)) with p by lia. replace (b + (p - b + 1)) with (S p) by lia.
  destruct (rec1_parses b (State (<[p:=NULL]> m) st)) as [(l & s2 & -> & W2)| ->];
    [|by right].
  run. destruct (rec1_parses (S p) s2) as [(r & s3 & -> & W3)| ->]; [|by right].
  left. run. eexists _, _. split; [done|]. by eapply within_split.
Qed.

Lemma parse_redirection_body_parses b p s :
  b ≤ p < b + strlen (string_at (memory s) b) →
  parses (parse_redirection_body rec1 b p s) s b.
Proof.
  destruct s as [m st]; cbn [memory]; intros H. unfold parse_redirection_body. run.
  replace (b + (p - b)) with p by lia. replace (b + (p - b + 1)) with (S p) by lia.
  destruct (rec1_parses b (State (<[p:=NULL]> m) st)) as [(l & s2 & -> & W2)| ->];
    [|by right].
  run.
  destruct (parse_redirection_file_name_parses (S p) s2) as [(r & s3 & -> & W3)| ->];
    [|by right].
  left. run. destruct (Ascii.eqb _ "<"); run;
    (eexists _, _; split; [done|]; by eapply within_split).
Qed.

Lemma parse_list_body_ext b p s :
  b ≤ p < b + strlen (string_at (memory s) b) →
  strlen (string_at (memory s) b) ≤ N →
  parse_list_body rec1 b p s = parse_list_body rec2 b p s.
Proof.
  destruct s as [m st]; cbn [memory]; intros H HN. unfold parse_list_body. run.
  replace (b + (p - b)) with p by lia. replace (b + (p - b + 1)) with (S p) by lia.
  rewrite <- rec_agree by (cbn [memory]; rewrite split_strlen by done; lia).
  destruct (rec1_parses b (State (<[p:=NULL]> m) st)) as [(l & s2 & -> & W2)| ->];
    [|done].
  run. rewrite <- rec_agree; [done|].
  pose proof (split_right_strlen m b p H).
  rewrite (split_right m _ b p) by done. lia.
Qed.

Lemma parse_pipe_body_ext b p s :
  b ≤ p < b + strlen (string_at (memory s) b) →
  strlen (string_at (memory s) b) ≤ N →
  parse_pipe_body rec1 b p s = parse_pipe_body rec2 b p s.
Proof.
  destruct s as [m st]; cbn [memory]; intros H HN. unfold parse_pipe_body. run.
  replace (b + (p - b)) with p by lia. replace (b + (p - b + 1)) with (S p) by lia.
  rewrite <- rec_agree by (cbn [memory]; rewrite split_strlen by done; lia).
  destruct (rec1_parses b (State (<[p:=NULL]> m) st)) as [(l & s2 & -> & W2)| ->];
    [|done].
  run. rewrite <- rec_agree; [done|].
  pose proof (split_right_strlen m b p H).
  rewrite (split_right m _ b p) by done. lia.
Qed.

Lemma parse_redirection_body_ext b p s :
  b ≤ p < b + strlen (string_at (memory s) b) →
  strlen (string_at (memory s) b) ≤ N →
  parse_redirection_body rec1 b p s = parse_redirection_body rec2 b p s.
Proof.
  destruct s as [m st]; cbn [memory]; intros H HN. unfold parse_redirection_body. run.
  replace (b + (p - b)) with p by lia.
  by rewrite <- rec_agree by (cbn [memory]; rewrite split_strlen by done; lia).
Qed.

Lemma parse_command_body_parses b s : parses (parse_command_body rec1 b s) s b.
Proof.
  destruct (parse_command_body_branch b s) as [(p & Hp & [E|[E|E]])|E]; rewrite E.
  - by apply parse_list_body_parses.
  - by apply parse_pipe_body_parses.
  - by apply parse_redirection_body_parses.
  - apply parse_execute_parses.
Qed.

Lemma parse_command_body_ext b s :
  strlen (string_at (memory s) b) ≤ N →
  parse_command_body rec1 b s = parse_command_body rec2 b s.
Proof.
  intros HN.
  destruct (parse_command_body_branch b s) as [(p & Hp & [E|[E|E]])|E]; rewrite !E.
  - by apply parse_list_body_ext.
  - by apply parse_pipe_body_ext.
  - by apply parse_redirection_body_ext.
  - done.
Qed.

End recursion.

Lemma parse_command_body_empty rec b s :
  strlen (string_at (memory s) b) = 0 → parse_command_body rec b s = parse_execute b s.
Proof.
  intros H.
  destruct (parse_command_body_branch b s) as [(p & Hp & _)|E]; [lia|apply E].
Qed.

Lemma parse_command_upto_parses n : ∀ b s, parses (parse_command_upto n b s) s b.
Proof.
  induction n as [|n IH]; intros b s; simpl.
  - apply parse_execute_parses.
  - by apply parse_command_body_parses.
Qed.

(** Any bound on the length of the string gives the same result. *)
Lemma parse_command_upto_stable n :
  ∀ n' b s,
    strlen (string_at (memory s) b) ≤ n → strlen (string_at (memory s) b) ≤ n' →
    parse_command_upto n b s = parse_command_upto n' b s.
Proof.
  induction n as [|n IH]; intros [|n'] b s H H'; simpl.
  - done.
  - symmetry. apply parse_command_body_empty. lia.
  - apply parse_command_body_empty. lia.
  - apply parse_command_body_ext with (N := strlen (string_at (memory s) b));
      [apply parse_command_upto_parses| |done].
    intros b' s' Hlt. apply IH; lia.
Qed.

Lemma parse_command_parses b s : parses (parse_command b s) s b.
Proof. apply parse_command_upto_parses. Qed.

(** [parse_command] is the function the source defines: it satisfies the
    recursive equation of lines 287-340. *)
Lemma parse_command_unfold b s :
  parse_command b s = parse_command_body parse_command b s.
Proof.
  unfold parse_command at 1.
  destruct (strlen (string_at (memory s) b)) as [|n] eqn:E; simpl.
  - symmetry. by apply parse_command_body_empty.
  - apply parse_command_body_ext with (N := S n);
      [apply parse_command_upto_parses| |lia].
    intros b' s' Hlt. unfold parse_command. apply parse_command_upto_stable; lia.
Qed.

(** ** Lines without operators *)

Lemma strrchr_from_absent m s k c :
  (∀ j, j ≤ k → byte_at m (s + j) ≠ c) → strrchr_from m s k c = None.
Proof.
  induction k as [|k IH]; simpl; intros H.
  - destruct (Ascii.eqb_spec (byte_at m (s + 0)) c) as [E|E]; [|done].
    by apply H in E.
  - destruct (Ascii.eqb_spec (byte_at m (s + S k)) c) as [E|E].
    + by apply H in E.
    + apply IH. intros j Hj. apply H. lia.
Qed.

Lemma cstring_lookup m p i c :
  i < strlen (string_at m p) → string_at m p !! i = Some c → c ∈ cstring m p.
Proof.
  intros Hi Hc. apply list_elem_of_lookup. exists i.
  unfold cstring. by rewrite lookup_take_lt.
Qed.

Lemma strchr_plain m p c : c ∉ cstring m p → strchr (string_at m p) c = None.
Proof.
  intros H. apply strchr_absent. intros i Hi Hc. apply H. by eapply cstring_lookup.
Qed.

Lemma strrchr_plain m p c :
  c ≠ NULL → c ∉ cstring m p →
  strrchr_from m p (strlen (string_at m p)) c = None.
Proof.
  intros Hn H. apply strrchr_from_absent. intros j Hj E.
  rewrite <- byte_at_string_at in E.
  destruct (decide (j = strlen (string_at m p))) as [->|Hne].
  - rewrite strlen_end in E. congruence.
  - destruct (strlen_lookup (string_at m p) j) as (x & Hx & _); [lia|].
    unfold byte_at in E. rewrite Hx in E. simpl in E. subst x.
    apply H. eapply cstring_lookup; [|done]. lia.
Qed.

(** The decisions of [parse_command], lines 290-339, on a given buffer. *)
Lemma parse_command_body_eq rec b m st :
  parse_command_body rec b (State m st) =
    match strchr (string_at m b) ";" with
    | Some i => parse_list_body rec b (b + i) (State m st)
    | None =>
        match strchr (string_at m b) "|" with
        | Some i => parse_pipe_body rec b (b + i) (State m st)
        | None =>
            match strrchr_from m b (strlen (string_at m b)) ">",
                  strrchr_from m b (strlen (string_at m b)) "<" with
            | Some p_split, None => parse_redirection_body rec b p_split (State m st)
            | None, Some p_split => parse_redirection_body rec b p_split (State m st)
            | Some p_right, Some p_left =>
                if p_right <? p_left then parse_redirection_body rec b p_left (State m st)
                else parse_redirection_body rec b p_right (State m st)
            | None, None => parse_execute b (State m st)
            end
        end
    end.
Proof.
  unfold parse_command_body. run.
  destruct (strchr (string_at m b) ";"); cbn [fmap option_fmap option_map]; run; [done|].
  destruct (strchr (string_at m b) "|"); cbn [fmap option_fmap option_map]; run; [done|].
  destruct (strrchr_from m b _ ">"), (strrchr_from m b _ "<"); try done.
  by destruct (_ <? _).
Qed.

Lemma parse_command_plain b s :
  plain (cstring (memory s) b) → parse_command b s = parse_execute b s.
Proof.
  intros H. rewrite parse_command_unfold. destruct s as [m st]; cbn [memory] in *.
  rewrite parse_command_body_eq.
  rewrite !strchr_plain, !strrchr_plain; try done.
  all: intros Hc; apply H in Hc; apply Hc; unfold operator; auto.
Qed.

(** ** The buffer of a line *)

Lemma not_elem_Forall (t : list ascii) c : c ∉ t → Forall (λ x, x ≠ c) t.
Proof. intros H. apply Forall_forall. intros x Hx ->. done. Qed.

Lemma strlen_terminated t rest : NULL ∉ t → strlen (t ++ NULL :: rest) = length t.
Proof.
  intros H. rewrite strlen_app by by apply not_elem_Forall. simpl. lia.
Qed.

Lemma cstring_terminated pre t rest :
  NULL ∉ t → cstring (pre ++ t ++ NULL :: rest) (length pre) = t.
Proof.
  intros H. unfold cstring. rewrite string_at_middle, strlen_terminated by done.
  by rewrite take_app_length.
Qed.

Lemma cstring_terminated' pre t rest p :
  p = length pre → NULL ∉ t → cstring (pre ++ t ++ NULL :: rest) p = t.
Proof. intros ->. apply cstring_terminated. Qed.

Lemma line_cstring line : NULL ∉ line → cstring (line ++ [NULL]) 0 = line.
Proof. apply (cstring_terminated [] line []). Qed.

Lemma line_strlen line : NULL ∉ line → strlen (string_at (line ++ [NULL]) 0) = length line.
Proof. apply (strlen_terminated line []). Qed.

(** Overwriting byte [i] of a text by the terminator. *)
Lemma insert_terminator (t : list ascii) rest i c :
  t !! i = Some c → <[i := NULL]> (t ++ rest) = take i t ++ NULL :: drop (S i) t ++ rest.
Proof.
  intros H. pose proof (lookup_lt_Some _ _ _ H) as Hi.
  rewrite insert_app_l by done. rewrite insert_take_drop by done.
  by rewrite <- app_assoc.
Qed.

Lemma first_at_strchr t rest c i :
  NULL ∉ t → first_at t c i → strchr (t ++ NULL :: rest) c = Some i.
Proof.
  intros Hn [Hi Hf]. pose proof (lookup_lt_Some _ _ _ Hi) as Hlt.
  apply strchr_first.
  - by rewrite strlen_terminated.
  - by rewrite lookup_app_l.
  - intros j Hj. rewrite lookup_app_l by lia. by apply Hf.
Qed.

Lemma last_at_strrchr m p t rest c i :
  string_at m p = t ++ NULL :: rest → NULL ∉ t → c ≠ NULL → last_at t c i →
  strrchr_from m p (strlen (string_at m p)) c = Some (p + i).
Proof.
  intros Hm Hn Hc [Hi Hl]. pose proof (lookup_lt_Some _ _ _ Hi) as Hlt.
  rewrite Hm, strlen_terminated by done. apply strrchr_from_last; [lia| |].
  - rewrite <- byte_at_string_at, Hm. unfold byte_at.
    by rewrite lookup_app_l, Hi.
  - intros j Hj. rewrite <- byte_at_string_at, Hm. unfold byte_at.
    destruct (decide (j = length t)) as [->|Hne].
    + rewrite list_lookup_middle by done. simpl. congruence.
    + rewrite lookup_app_l by lia. intros E.
      destruct (t !! j) as [x|] eqn:Ex; simpl in E; [|congruence].
      subst x. by apply Hl in Ex; [|lia].
Qed.

(** ** Properties of the executor and of the parser *)

(** C1 (as the code behaves).  For every Execute node with a program name,
    when [exec] returns, [run_command] writes "Failed to execute <program>"
    and a line feed to descriptor 2 and then leaves the [switch] and calls
    [exit(0)]: the status is 0, not 1. *)
Theorem run_command_exec_failure argv argv0 s :
  argv !! 0 = Some (Some argv0) →
  run_command (ExecuteCommand argv) s =
    Call (Exec (cstring (memory s) argv0) (arguments (memory s) argv))
      (λ _, Call (Fprintf 2 (chars "Failed to execute " ++ cstring (memory s) argv0 ++ newline))
              (λ _, Exit 0)).
Proof. intros H. simpl. by rewrite H. Qed.

Lemma run_command_exec_failure_witness :
  run_line 0 (line_state (chars "nosuch")) =
    Call (Exec (chars "nosuch") [chars "nosuch"])
      (λ _, Call (Fprintf 2 (chars "Failed to execute nosuch" ++ newline))
              (λ _, Exit 0)).
Proof.
  assert (E : parse_command 0 (line_state (chars "nosuch"))
              = Ret (ExecuteCommand (<[0 := Some 0]> create_execute_command),
                     line_state (chars "nosuch"))) by (vm_compute; reflexivity).
  unfold run_line, bind. rewrite E. cbn [proc_bind fst snd].
  rewrite (run_command_exec_failure _ 0); [|reflexivity].
  reflexivity.
Defined.

Lemma count_whitespace_app t rest :
  Forall (λ c, is_whitespace c = true) t →
  count_whitespace (t ++ rest) = length t + count_whitespace rest.
Proof. induction 1 as [|c t Hc _ IH]; simpl; [done|]. by rewrite Hc, IH. Qed.

Lemma whitespace_plain t : Forall (λ c, is_whitespace c = true) t → plain t.
Proof.
  intros H c Hc Ho. rewrite Forall_forall in H. apply H in Hc.
  by destruct Ho as [ -> | [ -> | [ -> | -> ] ] ].
Qed.

Lemma whitespace_no_NULL t : Forall (λ c, is_whitespace c = true) t → NULL ∉ t.
Proof.
  intros H Hc. rewrite Forall_forall in H. apply H in Hc. discriminate Hc.
Qed.

(** C7.  A line of separators only parses to an Execute node whose slots are
    all null, the buffer untouched; [run_command] on that node is [exit(1)]
    and nothing else: no call is made, in particular no [exec]. *)
Theorem whitespace_line_exits line :
  Forall (λ c, is_whitespace c = true) line →
  parse_command 0 (line_state line) =
    Ret (ExecuteCommand (replicate MAXIMUM_ARGUMENTS None), line_state line) ∧
  replicate MAXIMUM_ARGUMENTS (@None nat) !! 0 = Some None ∧
  (∀ s, run_command (ExecuteCommand (replicate MAXIMUM_ARGUMENTS None)) s = Exit 1) ∧
  run_line 0 (line_state line) = Exit 1.
Proof.
  intros H.
  assert (E : parse_command 0 (line_state line) =
              Ret (ExecuteCommand (replicate MAXIMUM_ARGUMENTS None), line_state line)).
  { rewrite parse_command_plain
      by (cbn [memory line_state]; rewrite line_cstring;
          auto using whitespace_plain, whitespace_no_NULL).
    unfold parse_execute, line_state. run.
    unfold string_at at 1. rewrite drop_0, count_whitespace_app by done.
    cbn [count_whitespace]. rewrite is_whitespace_NULL_false, Nat.add_0_r.
    cbn [Nat.add]. by rewrite byte_at_middle. }
  split; [done|]. split; [done|]. split; [done|].
  unfold run_line, bind. by rewrite E.
Qed.

Lemma whitespace_line_exits_witness :
  run_line 0 (line_state (chars "   ")) = Exit 1.
Proof.
  apply (whitespace_line_exits (chars "   ")).
  repeat constructor.
Defined.

Lemma elem_of_ascii_dec (c : ascii) (t : list ascii) : c ∈ t ∨ c ∉ t.
Proof.
  induction t as [|x t IH]; [right; apply not_elem_of_nil|].
  destruct (Ascii.eqb_spec c x) as [->|Hne]; [left; apply list_elem_of_here|].
  destruct IH as [IH|IH]; [left; by apply list_elem_of_further|].
  right. by apply not_elem_of_cons.
Qed.

Lemma first_at_exists (c : ascii) (t : list ascii) : c ∈ t → ∃ i, first_at t c i.
Proof.
  induction t as [|x t IH]; intros H; [by apply elem_of_nil in H|].
  destruct (Ascii.eqb_spec c x) as [->|Hne].
  { exists 0. split; [done|]. intros j Hj. lia. }
  apply elem_of_cons in H as [H|H]; [done|].
  destruct (IH H) as (i & Hi & Hf). exists (S i). split; [done|].
  intros [|j] Hj; simpl; [congruence|]. apply Hf. lia.
Qed.

Lemma last_at_exists (c : ascii) (t : list ascii) : c ∈ t → ∃ i, last_at t c i.
Proof.
  induction t as [|x t IH]; intros H; [by apply elem_of_nil in H|].
  destruct (elem_of_ascii_dec c t) as [Hin|Hout].
  - destruct (IH Hin) as (i & Hi & Hl). exists (S i). split; [done|].
    intros [|j] Hj; [lia|]. simpl. apply Hl. lia.
  - apply elem_of_cons in H as [->|H]; [|done].
    exists 0. split; [done|]. intros [|j] Hj; [lia|]. simpl.
    intros E. apply Hout. by eapply list_elem_of_lookup_2.
Qed.

Lemma parse_command_split_sequence line i :
  NULL ∉ line → first_at line ";" i →
  parse_command 0 (line_state line) =
    (store i NULL ;;
     p_left_command <- parse_command 0 ;;
     p_right_command <- parse_command (i + 1) ;;
     ret (ListCommand p_left_command p_right_command)) (line_state line) ∧
  cstring (<[i := NULL]> (line ++ [NULL])) 0 = take i line ∧
  cstring (<[i := NULL]> (line ++ [NULL])) (i + 1) = drop (i + 1) line.
Proof.
  intros Hn Hf. split; [|split].
  - rewrite parse_command_unfold. unfold line_state.
    rewrite parse_command_body_eq. unfold string_at at 1. rewrite drop_0.
    rewrite (first_at_strchr line [] ";" i) by done.
    unfold parse_list_body. cbn [Nat.add]. by rewrite Nat.sub_0_r.
  - destruct Hf as [Hi _]. rewrite (insert_terminator line [NULL] i ";") by done.
    apply (cstring_terminated [] (take i line)).
    intros Hc. by apply subseteq_take in Hc.
  - destruct Hf as [Hi _]. pose proof (lookup_lt_Some _ _ _ Hi) as Hlt.
    rewrite (insert_terminator line [NULL] i ";") by done.
    rewrite Nat.add_1_r, (cons_middle NULL), app_assoc.
    apply (cstring_terminated' (take i line ++ [NULL]) (drop (S i) line) []).
    + rewrite length_app, length_take. simpl. lia.
    + intros Hc. by apply subseteq_drop in Hc.
Qed.

(** C5.  A line that contains ';' is split at the first one, at offset [i]:
    the byte becomes the terminator, the text before it (which holds no ';')
    and the text behind it are parsed by [parse_command], and the two results
    make a Sequence node.  So "a ; b ; c" is Sequence(a, Sequence(b, c)). *)
Theorem parse_command_sequence_first :
  (∀ line,
     NULL ∉ line → ";"%char ∈ line →
     ∃ i,
       first_at line ";" i ∧
       parse_command 0 (line_state line) =
         (store i NULL ;;
          p_left_command <- parse_command 0 ;;
          p_right_command <- parse_command (i + 1) ;;
          ret (ListCommand p_left_command p_right_command)) (line_state line) ∧
       cstring (<[i := NULL]> (line ++ [NULL])) 0 = take i line ∧
       cstring (<[i := NULL]> (line ++ [NULL])) (i + 1) = drop (i + 1) line ∧
       ";"%char ∉ take i line) ∧
  parsed (parse_command 0 (line_state (chars "a ; b ; c"))) =
    Some (Sequence (Execute [chars "a"])
            (Sequence (Execute [chars "b"]) (Execute [chars "c"]))).
Proof.
  split; [|by vm_compute].
  intros line Hn Hs. destruct (first_at_exists _ _ Hs) as (i & Hf).
  destruct (parse_command_split_sequence line i Hn Hf) as (E & El & Er).
  exists i. do 4 (split; [done|]).
  intros Hc. apply elem_of_take in Hc as (j & Hj & Hlt).
  destruct Hf as [_ Hf]. by apply Hf in Hlt.
Qed.

(** Side conditions on literal lines. *)
Ltac literal := unfold chars; cbn [list_ascii_of_string].

Ltac not_in_literal :=
  literal; let H := fresh in
  intros H; repeat (apply elem_of_cons in H as [H|H]; [discriminate H|]);
  by apply elem_of_nil in H.

Ltac at_literal :=
  literal; split; [reflexivity|];
  let k := fresh "k" in let Hk := fresh in
  intros k Hk;
  repeat first [done | lia | destruct k as [|k]; cbn [lookup list_lookup] in * ].

Ltac in_literal :=
  literal; repeat first [apply list_elem_of_here | apply list_elem_of_further].

Lemma parse_command_sequence_first_witness :
  ∃ i,
    first_at (chars "a;b") ";" i ∧
    parse_command 0 (line_state (chars "a;b")) =
      (store i NULL ;;
       p_left_command <- parse_command 0 ;;
       p_right_command <- parse_command (i + 1) ;;
       ret (ListCommand p_left_command p_right_command)) (line_state (chars "a;b")).
Proof.
  destruct (proj1 parse_command_sequence_first (chars "a;b"))
    as (i & Hf & E & _).
  - literal. intros H.
    by repeat (apply elem_of_cons in H as [H|H]; [discriminate H|]);
      apply elem_of_nil in H.
  - in_literal.
  - exists i. split; [exact Hf|exact E].
Defined.

Lemma parse_redirection_eq b p s :
  b ≤ p →
  parse_redirection b p s =
    (store p NULL ;;
     p_redirection_command <- parse_command b ;;
     p_redirection_file_name <- parse_redirection_file_name (p + 1) ;;
     ret (if Ascii.eqb (byte_at (memory s) p) "<"
          then RedirectionCommand p_redirection_command p_redirection_file_name O_RDONLY 0
          else RedirectionCommand p_redirection_command p_redirection_file_name
                 (Z.lor O_WRONLY O_CREATE) 1)) s.
Proof.
  intros H. unfold parse_redirection, parse_redirection_body. run.
  replace (b + (p - b)) with p by lia. replace (b + (p - b + 1)) with (p + 1) by lia.
  by destruct (Ascii.eqb _ "<").
Qed.

Lemma byte_at_insert_NULL m p : byte_at (<[p := NULL]> m) p = NULL.
Proof.
  unfold byte_at. destruct (decide (p < length m)).
  - by rewrite list_lookup_insert_eq.
  - by rewrite lookup_ge_None_2 by (rewrite length_insert; lia).
Qed.

Lemma count_whitespace_cstring t :
  Forall (λ c, is_whitespace c = true) (take (strlen t) t) → count_whitespace t = strlen t.
Proof.
  induction t as [|c t IH]; simpl; [done|].
  destruct (Ascii.eqb_spec c NULL) as [->|Hc]; simpl; [done|].
  intros H. apply Forall_cons in H as [-> H]. f_equal. by apply IH.
Qed.

Lemma count_token_end t : count_token (drop (strlen t) t) = 0.
Proof.
  induction t as [|c t IH]; simpl; [done|].
  by destruct (Ascii.eqb_spec c NULL) as [->|Hc]; simpl.
Qed.

(** A file name of separators only is the fatal error. *)
Lemma parse_redirection_file_name_empty b s :
  Forall (λ c, is_whitespace c = true) (cstring (memory s) b) →
  parse_redirection_file_name b s =
    fatal (chars "Failed to parse filename for redirection").
Proof.
  destruct s as [m st]; cbn [memory]. unfold cstring. intros H.
  unfold parse_redirection_file_name. run.
  rewrite count_whitespace_cstring by done.
  rewrite string_at_plus, count_token_end, Nat.add_0_r, byte_at_insert_NULL.
  done.
Qed.

Lemma parse_command_split_redirections line i j :
  NULL ∉ line → ";"%char ∉ line → "|"%char ∉ line →
  last_at line ">" i → last_at line "<" j →
  parse_command 0 (line_state line) =
    (store (i `max` j) NULL ;;
     p_redirection_command <- parse_command 0 ;;
     p_redirection_file_name <- parse_redirection_file_name (i `max` j + 1) ;;
     ret (if i <? j
          then RedirectionCommand p_redirection_command p_redirection_file_name O_RDONLY 0
          else RedirectionCommand p_redirection_command p_redirection_file_name
                 (Z.lor O_WRONLY O_CREATE) 1)) (line_state line) ∧
  cstring (<[i `max` j := NULL]> (line ++ [NULL])) 0 = take (i `max` j) line ∧
  take (i `max` j) line !! (i `min` j) = Some (if i <? j then ">"%char else "<"%char).
Proof.
  intros Hn Hs Hb [Hi Hil] [Hj Hjl].
  assert (Hij : i ≠ j) by (intros ->; congruence).
  pose proof (lookup_lt_Some _ _ _ Hi) as Hilt.
  pose proof (lookup_lt_Some _ _ _ Hj) as Hjlt.
  assert (Hbyte : ∀ k c, line !! k = Some c → byte_at (line ++ [NULL]) k = c).
  { intros k c Hk. unfold byte_at. rewrite lookup_app_l by by eapply lookup_lt_Some.
    by rewrite Hk. }
  split; [|split].
  - rewrite parse_command_unfold. unfold line_state. rewrite parse_command_body_eq.
    rewrite !strchr_plain by by rewrite line_cstring.
    rewrite (last_at_strrchr _ 0 line [] ">" i), (last_at_strrchr _ 0 line [] "<" j);
      try done.
    cbn [Nat.add]. fold (parse_redirection 0 j). fold (parse_redirection 0 i).
    destruct (i <? j) eqn:E.
    + apply Nat.ltb_lt in E. rewrite Nat.max_r by lia.
      rewrite parse_redirection_eq by lia. cbn [memory].
      by rewrite (Hbyte j "<"%char).
    + apply Nat.ltb_ge in E. rewrite Nat.max_l by lia.
      rewrite parse_redirection_eq by lia. cbn [memory].
      by rewrite (Hbyte i ">"%char).
  - destruct (Nat.max_spec i j) as [[_ ->]|[_ ->]].
    + rewrite (insert_terminator line [NULL] j "<") by done.
      apply (cstring_terminated [] (take j line)).
      intros Hc. by apply subseteq_take in Hc.
    + rewrite (insert_terminator line [NULL] i ">") by done.
      apply (cstring_terminated [] (take i line)).
      intros Hc. by apply subseteq_take in Hc.
  - destruct (i <? j) eqn:E.
    + apply Nat.ltb_lt in E. rewrite Nat.max_r, Nat.min_l by lia.
      by rewrite lookup_take_lt.
    + apply Nat.ltb_ge in E. rewrite Nat.max_l, Nat.min_r by lia.
      rewrite lookup_take_lt by lia. done.
Qed.

(** C2 (as the code behaves).  With both '>' and '<' on a line that has no
    ';' and no '|', the split is at the larger of the two last offsets: the
    symbol there gives the outer Redirect node ('<' when the last '<' lies
    behind the last '>', else '>'), and the text before it, which still
    holds the other symbol, is parsed by [parse_command]. *)
Theorem parse_command_two_redirections line :
  NULL ∉ line → ";"%char ∉ line → "|"%char ∉ line →
  ">"%char ∈ line → "<"%char ∈ line →
  ∃ i j,
    last_at line ">" i ∧ last_at line "<" j ∧
    parse_command 0 (line_state line) =
      (store (i `max` j) NULL ;;
       p_redirection_command <- parse_command 0 ;;
       p_redirection_file_name <- parse_redirection_file_name (i `max` j + 1) ;;
       ret (if i <? j
            then RedirectionCommand p_redirection_command p_redirection_file_name O_RDONLY 0
            else RedirectionCommand p_redirection_command p_redirection_file_name
                   (Z.lor O_WRONLY O_CREATE) 1)) (line_state line) ∧
    cstring (<[i `max` j := NULL]> (line ++ [NULL])) 0 = take (i `max` j) line ∧
    take (i `max` j) line !! (i `min` j) = Some (if i <? j then ">"%char else "<"%char).
Proof.
  intros Hn Hs Hb Hr Hl.
  destruct (last_at_exists _ _ Hr) as (i & Hi).
  destruct (last_at_exists _ _ Hl) as (j & Hj).
  exists i, j. split; [done|]. split; [done|].
  by apply parse_command_split_redirections.
Qed.

Lemma parse_command_two_redirections_witness :
  ∃ i j,
    last_at (chars "cmd < in > out") ">" i ∧ last_at (chars "cmd < in > out") "<" j ∧
    parse_command 0 (line_state (chars "cmd < in > out")) =
      (store (i `max` j) NULL ;;
       p_redirection_command <- parse_command 0 ;;
       p_redirection_file_name <- parse_redirection_file_name (i `max` j + 1) ;;
       ret (if i <? j
            then RedirectionCommand p_redirection_command p_redirection_file_name O_RDONLY 0
            else RedirectionCommand p_redirection_command p_redirection_file_name
                   (Z.lor O_WRONLY O_CREATE) 1)) (line_state (chars "cmd < in > out")).
Proof.
  destruct (parse_command_two_redirections (chars "cmd < in > out"))
    as (i & j & Hi & Hj & E & _).
  - not_in_literal.
  - not_in_literal.
  - not_in_literal.
  - in_literal.
  - in_literal.
  - exists i, j. split; [exact Hi|]. split; [exact Hj|exact E].
Defined.

(** C2, counterexample.  In "cmd < in > out" the last '>' is at offset 9 and
    the last '<' at offset 4.  The outer node is the Redirect of '>' to "out"
    on descriptor 1, around the Redirect of '<'; splitting at offset 4, the
    smaller one, gives another result. *)
Lemma two_redirections_split_at_larger_offset :
  last_at (chars "cmd < in > out") ">" 9 ∧
  last_at (chars "cmd < in > out") "<" 4 ∧
  parsed (parse_command 0 (line_state (chars "cmd < in > out"))) =
    Some (Redirect (Redirect (Execute [chars "cmd"]) (chars "in") O_RDONLY 0)
            (chars "out") (Z.lor O_WRONLY O_CREATE) 1) ∧
  parsed (parse_redirection 0 (9 `min` 4) (line_state (chars "cmd < in > out"))) =
    Some (Redirect (Execute [chars "cmd"]) (chars "in") O_RDONLY 0) ∧
  parse_command 0 (line_state (chars "cmd < in > out")) ≠
    parse_redirection 0 (9 `min` 4) (line_state (chars "cmd < in > out")).
Proof.
  split; [at_literal|]. split; [at_literal|].
  split; [by vm_compute|]. split; [by vm_compute|].
  intros E. apply (f_equal parsed) in E. vm_compute in E. discriminate E.
Qed.

(** C4 (as the code behaves).  [parse_redirection] overwrites the symbol,
    parses the text before it and the file name behind it, and returns a
    Redirect node: for '<' with mode [O_RDONLY] on descriptor 0, otherwise
    (for '>') with mode [O_WRONLY | O_CREATE] on descriptor 1.  That mode has
    the write and the create flag and not the truncate flag. *)
Theorem parse_redirection_modes :
  (∀ b p s command s',
     b ≤ p → parse_redirection b p s = Ret (command, s') →
     ∃ inner file,
       command =
         if Ascii.eqb (byte_at (memory s) p) "<"
         then RedirectionCommand inner file O_RDONLY 0
         else RedirectionCommand inner file (Z.lor O_WRONLY O_CREATE) 1) ∧
  (∀ b p s,
     b ≤ p →
     parse_redirection b p s =
       (store p NULL ;;
        inner <- parse_command b ;;
        file <- parse_redirection_file_name (p + 1) ;;
        ret (if Ascii.eqb (byte_at (memory s) p) "<"
             then RedirectionCommand inner file O_RDONLY 0
             else RedirectionCommand inner file (Z.lor O_WRONLY O_CREATE) 1)) s) ∧
  Z.land (Z.lor O_WRONLY O_CREATE) O_WRONLY = O_WRONLY ∧
  Z.land (Z.lor O_WRONLY O_CREATE) O_CREATE = O_CREATE ∧
  Z.land (Z.lor O_WRONLY O_CREATE) O_TRUNC = 0%Z ∧
  parsed (parse_redirection 0 2 (line_state (chars "a < f"))) =
    Some (Redirect (Execute [chars "a"]) (chars "f") O_RDONLY 0) ∧
  parsed (parse_redirection 0 2 (line_state (chars "a > f"))) =
    Some (Redirect (Execute [chars "a"]) (chars "f") (Z.lor O_WRONLY O_CREATE) 1).
Proof.
  split; [|split; [apply parse_redirection_eq|by vm_compute]].
  intros b p s command s' H. rewrite parse_redirection_eq by done. run.
  destruct (parse_command_parses b (State (<[p:=NULL]> (memory s)) (stray s)))
    as [(inner & s2 & -> & _)| ->]; [|done].
  run.
  destruct (parse_redirection_file_name_parses (p + 1) s2)
    as [(file & s3 & -> & _)| ->]; [|done].
  run. intros [= <- <-]. by exists inner, file.
Qed.

Lemma parse_redirection_modes_witness :
  ∃ inner file,
    RedirectionCommand
      (ExecuteCommand (<[0 := Some 0]> create_execute_command)) 4
      (Z.lor O_WRONLY O_CREATE) 1 =
    RedirectionCommand inner file (Z.lor O_WRONLY O_CREATE) 1.
Proof.
  apply (proj1 parse_redirection_modes 0 2 (line_state (chars "a > f")) _
           (State (chars "a" ++ [NULL; NULL; " "%char] ++ chars "f" ++ [NULL]) []));
    [lia | by vm_compute].
Defined.

(** C4, counterexample.  The node for "a > f" has mode 0x201, which is
    [O_WRONLY | O_CREATE]: the truncate flag [O_TRUNC] is not in it. *)
Lemma redirection_right_mode_has_no_truncate :
  parsed (parse_redirection 0 2 (line_state (chars "a > f"))) =
    Some (Redirect (Execute [chars "a"]) (chars "f") 0x201 1) ∧
  Z.land 0x201 O_TRUNC = 0%Z ∧
  0x201%Z ≠ Z.lor (Z.lor O_WRONLY O_CREATE) O_TRUNC.
Proof. split; [by vm_compute|]. split; [done|]. by vm_compute. Qed.

(** C8.  When only separators follow the redirection symbol, parsing the
    redirection is the fatal error and nothing else: the message "Failed to
    parse filename for redirection" and a line feed go to descriptor 2 and
    the process exits with status 1.  No node is returned and no call other
    than the message is made, so nothing is forked or executed; so it is for
    the whole line "cmd > ", which never reaches [run_command]. *)
Theorem parse_redirection_without_file_name :
  (∀ b p s,
     b ≤ p < b + strlen (string_at (memory s) b) →
     Forall (λ c, is_whitespace c = true) (cstring (memory s) (p + 1)) →
     parse_redirection b p s =
       Call (Fprintf 2 (chars "Failed to parse filename for redirection" ++ newline))
         (λ _, Exit 1)) ∧
  run_line 0 (line_state (chars "cmd > ")) =
    Call (Fprintf 2 (chars "Failed to parse filename for redirection" ++ newline))
      (λ _, Exit 1).
Proof.
  split; [|by vm_compute].
  intros b p [m st] H Hw. cbn [memory] in *.
  rewrite parse_redirection_eq by lia. run.
  destruct (parse_command_parses b (State (<[p:=NULL]> m) st))
    as [(inner & s2 & -> & W)| ->]; [|done].
  run. rewrite parse_redirection_file_name_empty; [done|].
  cbn [memory] in W. unfold cstring in *.
  by rewrite Nat.add_1_r, (split_right m _ b p), <- Nat.add_1_r.
Qed.

Lemma parse_redirection_without_file_name_witness :
  parse_redirection 0 4 (line_state (chars "cmd > ")) =
    Call (Fprintf 2 (chars "Failed to parse filename for redirection" ++ newline))
      (λ _, Exit 1).
Proof.
  apply (proj1 parse_redirection_without_file_name 0 4 (line_state (chars "cmd > "))).
  - vm_compute. lia.
  - vm_compute. repeat constructor.
Defined.

Lemma cstring_string_at m p t rest :
  string_at m p = t ++ NULL :: rest → NULL ∉ t → cstring m p = t.
Proof.
  intros E H. unfold cstring. rewrite E, strlen_terminated by done.
  by rewrite take_app_length.
Qed.

Lemma plain_not_elem t c : plain t → operator c → c ∉ t.
Proof. intros H Ho Hc. by apply H in Hc. Qed.

Lemma operator_semicolon : operator ";".
Proof. unfold operator. auto. Qed.
Lemma operator_bar : operator "|".
Proof. unfold operator. auto. Qed.
Lemma operator_right : operator ">".
Proof. unfold operator. auto. Qed.
Lemma operator_left : operator "<".
Proof. unfold operator. auto. Qed.

#[local] Hint Resolve plain_not_elem operator_semicolon operator_bar
  operator_right operator_left : core.

Lemma first_at_middle (a b : list ascii) c : c ∉ a → first_at (a ++ c :: b) c (length a).
Proof.
  intros H. split; [by apply list_lookup_middle|].
  intros j Hj E. rewrite lookup_app_l in E by done.
  apply H. by eapply list_elem_of_lookup_2.
Qed.

Lemma last_at_middle (a b : list ascii) c : c ∉ b → last_at (a ++ c :: b) c (length a).
Proof.
  intros H. split; [by apply list_lookup_middle|].
  intros j Hj E. rewrite lookup_app_r in E by lia.
  destruct (j - length a) as [|k] eqn:Ek; [lia|]. simpl in E.
  apply H. by eapply list_elem_of_lookup_2.
Qed.

Lemma parse_command_split_pipe_redirection a b f :
  NULL ∉ a → NULL ∉ b → NULL ∉ f → plain a → plain b → plain f →
  parse_command 0 (line_state (a ++ "|"%char :: b ++ ">"%char :: f)) =
    (store (length a) NULL ;;
     p_left_command <- parse_execute 0 ;;
     store (length a + 1 + length b) NULL ;;
     p_redirection_command <- parse_execute (length a + 1) ;;
     p_redirection_file_name <-
       parse_redirection_file_name (length a + 1 + length b + 1) ;;
     ret (PipeCommand p_left_command
            (RedirectionCommand p_redirection_command p_redirection_file_name
               (Z.lor O_WRONLY O_CREATE) 1)))
      (line_state (a ++ "|"%char :: b ++ ">"%char :: f)).
Proof.
  intros Na Nb Nf Pa Pb Pf.
  set (line := a ++ "|"%char :: b ++ ">"%char :: f).
  assert (Nbf : NULL ∉ b ++ ">"%char :: f).
  { rewrite not_elem_of_app, not_elem_of_cons. done. }
  assert (Nl : NULL ∉ line).
  { subst line. rewrite not_elem_of_app, not_elem_of_cons. done. }
  assert (Sl : ";"%char ∉ line).
  { subst line. rewrite not_elem_of_app, !not_elem_of_cons, not_elem_of_app,
      not_elem_of_cons. repeat split; auto. all: done. }
  assert (Sr : ∀ c : ascii, c ≠ ">"%char → operator c → c ∉ b ++ ">"%char :: f).
  { intros c Hc Ho. rewrite not_elem_of_app, not_elem_of_cons. auto. }
  (* the split at '|' *)
  rewrite parse_command_unfold. unfold line_state. rewrite parse_command_body_eq.
  rewrite strchr_plain by by rewrite line_cstring.
  unfold string_at at 1. rewrite drop_0.
  rewrite (first_at_strchr line [] "|" (length a));
    [|done|by apply first_at_middle; auto].
  unfold parse_pipe_body. cbn [Nat.add]. rewrite Nat.sub_0_r. run.
  assert (Ea : cstring (<[length a:=NULL]> (line ++ [NULL])) 0 = a).
  { subst line. rewrite <- app_assoc. simpl.
    rewrite (insert_app_r_alt a), Nat.sub_diag by done. simpl.
    by apply (cstring_terminated [] a). }
  rewrite parse_command_plain by (cbn [memory]; by rewrite Ea).
  destruct (parse_execute_within 0 (State (<[length a:=NULL]> (line ++ [NULL])) []))
    as (argv & [m2 st2] & -> & W). run. cbn [memory] in W.
  (* the right part is untouched by the left parse *)
  assert (E2 : string_at m2 (length a + 1) = (b ++ ">"%char :: f) ++ NULL :: []).
  { rewrite Nat.add_1_r, (split_right (line ++ [NULL]) m2 0 (length a)); [| |done].
    - subst line.
      replace ((a ++ "|"%char :: b ++ ">"%char :: f) ++ [NULL])
        with ((a ++ ["|"%char]) ++ (b ++ ">"%char :: f) ++ [NULL])
        by (rewrite <- !app_assoc; simpl; by rewrite <- ?app_assoc).
      replace (S (length a)) with (length (a ++ ["|"%char]))
        by (rewrite length_app; simpl; lia).
      by rewrite string_at_middle.
    - unfold string_at. rewrite drop_0, strlen_terminated by done.
      subst line. rewrite length_app. simpl. lia. }
  (* the split at '>' *)
  rewrite parse_command_unfold, parse_command_body_eq.
  rewrite !strchr_plain by (by rewrite (cstring_string_at _ _ _ _ E2); auto).
  rewrite (last_at_strrchr _ _ _ _ ">" (length b) E2); [|done|done|].
  2:{ apply last_at_middle. auto. }
  rewrite strrchr_plain by (by rewrite ?(cstring_string_at _ _ _ _ E2); auto).
  fold (parse_redirection (length a + 1) (length a + 1 + length b)).
  rewrite parse_redirection_eq by lia. run.
  assert (Eb : cstring (<[length a + 1 + length b:=NULL]> m2) (length a + 1) = b).
  { unfold cstring, string_at. rewrite drop_insert_ge by lia.
    fold (string_at m2 (length a + 1)). rewrite E2, <- app_assoc.
    replace (length a + 1 + length b - (length a + 1)) with (length b + 0) by lia.
    rewrite insert_app_r. simpl. rewrite strlen_terminated by done.
    by rewrite take_app_length. }
  rewrite parse_command_plain by (cbn [memory]; by rewrite Eb).
  assert (Ed : byte_at m2 (length a + 1 + length b) = ">"%char).
  { rewrite <- byte_at_string_at, E2, <- app_assoc. cbn [app].
    by rewrite byte_at_middle. }
  rewrite Ed.
  destruct (parse_execute_within (length a + 1)
              (State (<[length a + 1 + length b:=NULL]> m2) st2))
    as (argv' & s3 & -> & _).
  run.
  by destruct (parse_redirection_file_name_parses (length a + 1 + length b + 1) s3)
    as [(file & s4 & -> & _)| ->].
Qed.


(** ** The arguments of [parse_execute] *)

Lemma flat_length_starts off items :
  length (starts off items) = length items.
Proof.
  revert off. induction items as [|[t w] r IH]; intros off; simpl; [done|].
  by rewrite IH.
Qed.

Lemma slots_small ptrs :
  length ptrs ≤ MAXIMUM_ARGUMENTS →
  slots ptrs = map Some ptrs ++ replicate (MAXIMUM_ARGUMENTS - length ptrs) None.
Proof. intros H. unfold slots. by rewrite take_ge. Qed.

Lemma slots_snoc ptrs q :
  length ptrs < MAXIMUM_ARGUMENTS →
  <[length ptrs := Some q]> (slots ptrs) = slots (ptrs ++ [q]).
Proof.
  intros H. rewrite !slots_small by (rewrite ?length_app; simpl; lia).
  rewrite length_app. simpl.
  replace (MAXIMUM_ARGUMENTS - length ptrs)
    with (S (MAXIMUM_ARGUMENTS - (length ptrs + 1))) by lia.
  simpl. rewrite map_app, <- app_assoc. simpl.
  replace (length ptrs) with (length (map Some ptrs) + 0) at 1
    by (rewrite length_map; lia).
  by rewrite insert_app_r.
Qed.

Lemma slots_full ptrs q :
  length ptrs = MAXIMUM_ARGUMENTS → slots (ptrs ++ q) = slots ptrs.
Proof.
  intros H. unfold slots. rewrite take_app_le by lia.
  rewrite length_app. by replace (MAXIMUM_ARGUMENTS - (length ptrs + length q))
    with (MAXIMUM_ARGUMENTS - length ptrs) by lia.
Qed.

Lemma token_char_head t rest :
  t ≠ [] → Forall token_char t →
  ∃ c, head (t ++ rest) = Some c ∧ token_char c.
Proof. intros Hn H. destruct H as [|c t Hc _]; [done|]. by exists c. Qed.

(** The loop over the characters of a token. *)
Lemma parse_execute_loop_token t :
  ∀ n pre suf argv argi st,
    argi < MAXIMUM_ARGUMENTS → Forall token_char t →
    parse_execute_loop (length t + n) argv argi (length pre) (State (pre ++ t ++ suf) st) =
    parse_execute_loop n argv argi (length (pre ++ t)) (State (pre ++ t ++ suf) st).
Proof.
  induction t as [|c t IH]; intros n pre suf argv argi st Ha Ht.
  { by rewrite app_nil_r. }
  apply Forall_cons in Ht as [Hc Ht]. apply token_char_eqb in Hc as [Hc1 Hc2].
  apply Nat.ltb_lt in Ha as Ha'.
  cbn [length Nat.add parse_execute_loop]. rewrite Ha'. run.
  cbn [app]. rewrite byte_at_middle, Hc1, Hc2.
  specialize (IH n (pre ++ [c]) suf argv argi st Ha Ht).
  rewrite length_app in IH. cbn [length] in IH. rewrite Nat.add_1_r in IH.
  rewrite <- !app_assoc in IH. cbn [app] in IH. rewrite IH.
  by rewrite (cons_middle c pre), app_assoc.
Qed.

Lemma terminated_nil k : terminated k [] = [].
Proof. by destruct k. Qed.

Lemma insert_middle (pre : list ascii) x y suf :
  <[length pre := y]> (pre ++ x :: suf) = pre ++ y :: suf.
Proof.
  replace (length pre) with (length pre + 0) by lia. by rewrite insert_app_r.
Qed.

Lemma string_at_after pre (x : ascii) suf :
  string_at (pre ++ x :: suf) (S (length pre)) = suf.
Proof.
  rewrite (cons_middle x), app_assoc.
  replace (S (length pre)) with (length (pre ++ [x]))
    by (rewrite length_app; simpl; lia).
  apply string_at_middle.
Qed.

Lemma count_whitespace_items r rest :
  tokens_ok r → count_whitespace (flat r ++ NULL :: rest) = 0.
Proof.
  destruct r as [|[t w] r]; simpl; [done|].
  intros (Hn & Ht & _). destruct Ht as [|c t [Hc _] _]; [done|].
  simpl. by rewrite Hc.
Qed.

Lemma overflow_small ptrs : length ptrs ≤ MAXIMUM_ARGUMENTS → overflow ptrs = [].
Proof. intros H. unfold overflow. by rewrite lookup_ge_None_2. Qed.

Lemma parse_execute_loop_done n argv buffer s :
  parse_execute_loop n argv MAXIMUM_ARGUMENTS buffer s = Ret (argv, s).
Proof. by destruct n. Qed.

Lemma parse_execute_loop_end n argv argi pre rest st :
  parse_execute_loop n argv argi (length pre) (State (pre ++ NULL :: rest) st) =
    Ret (argv, State (pre ++ NULL :: rest) st).
Proof.
  destruct n; [done|]. cbn [parse_execute_loop].
  destruct (argi <? MAXIMUM_ARGUMENTS); [|done]. run. by rewrite byte_at_middle.
Qed.

(** The loop over the tokens: it fills the slots after [filled] with the starts
    of the tokens, terminates the tokens it has stored, and, when there is
    one token more than slots, stores its start behind the array. *)
Lemma parse_execute_loop_items items :
  ∀ n pre filled st rest,
    tokens_ok items → items ≠ [] → length filled < MAXIMUM_ARGUMENTS →
    length (flat items) ≤ n →
    parse_execute_loop n (slots (filled ++ [length pre])) (length filled) (length pre)
      (State (pre ++ flat items ++ NULL :: rest) st) =
    Ret (slots (filled ++ starts (length pre) items),
         State (pre ++ terminated (MAXIMUM_ARGUMENTS - length filled) items ++ NULL :: rest)
           (st ++ overflow (filled ++ starts (length pre) items))).
Proof.
  induction items as [|[t w] r IH]; intros n pre filled st rest Hok Hne Hd Hn; [done|].
  destruct Hok as (Ht0 & Ht & Hw & Hrw & Hr).
  cbn [flat] in *. rewrite !length_app in Hn.
  replace n with (length t + (n - length t)) by lia.
  rewrite <- !app_assoc, parse_execute_loop_token by done.
  destruct (MAXIMUM_ARGUMENTS - length filled) as [|k] eqn:Ek; [lia|].
  cbn [terminated starts]. rewrite <- !app_assoc.
  rewrite !(app_assoc pre t). set (pre1 := pre ++ t).
  assert (L1 : length pre1 = length pre + length t) by (subst pre1; apply length_app).
  destruct w as [|c w].
  { (* the last token, nothing behind it *)
    destruct r as [|x r]; [|by exfalso; apply Hrw].
    cbn [app terminate flat starts]. rewrite terminated_nil.
    rewrite parse_execute_loop_end, overflow_small, app_nil_r; [done|].
    rewrite length_app. simpl. lia. }
  apply Forall_cons in Hw as [Hc Hw]. cbn [length] in Hn.
  destruct (n - length t) as [|n2] eqn:En; [lia|].
  cbn [parse_execute_loop]. apply Nat.ltb_lt in Hd as Hd'. rewrite Hd'. run.
  cbn [app terminate]. rewrite byte_at_middle.
  pose proof (whitespace_not_NULL _ Hc) as Hc0. apply eqb_NULL_false in Hc0.
  rewrite Hc0, Hc. run.
  rewrite insert_middle, string_at_after, count_whitespace_app by done.
  rewrite count_whitespace_items, Nat.add_0_r by done.
  set (pre2 := pre1 ++ NULL :: w).
  assert (L2 : S (length pre1) + length w = length pre2)
    by (subst pre2; rewrite length_app; simpl; lia).
  rewrite L2.
  replace (pre1 ++ NULL :: w ++ flat r ++ NULL :: rest)
    with (pre2 ++ flat r ++ NULL :: rest)
    by (subst pre2; by rewrite <- app_assoc).
  replace (pre1 ++ NULL :: w ++ terminated k r ++ NULL :: rest)
    with (pre2 ++ terminated k r ++ NULL :: rest)
    by (subst pre2; by rewrite <- app_assoc).
  replace (length pre + length t + length (c :: w)) with (length pre2)
    by (simpl; lia).
  destruct r as [|[t2 w2] r].
  { (* the last token, separators behind it *)
    cbn [flat app starts]. rewrite byte_at_middle, terminated_nil.
    rewrite overflow_small, app_nil_r; [done|]. rewrite length_app. simpl. lia. }
  destruct (token_char_head t2 (w2 ++ flat r ++ NULL :: rest)) as (c2 & Hh & Hc2);
    [apply Hr..|].
  assert (Hb : byte_at (pre2 ++ flat ((t2, w2) :: r) ++ NULL :: rest) (length pre2) = c2).
  { cbn [flat]. rewrite <- !app_assoc.
    destruct (t2 ++ w2 ++ flat r ++ NULL :: rest) as [|x l]; [done|].
    injection Hh as ->. apply byte_at_middle. }
  rewrite Hb. apply token_char_eqb in Hc2 as [-> _].
  unfold set_argv. cbn [memory stray].
  replace (filled ++ length pre :: starts (length pre2) ((t2, w2) :: r))
    with ((filled ++ [length pre]) ++ starts (length pre2) ((t2, w2) :: r))
    by (by rewrite <- app_assoc).
  assert (Ld : length (filled ++ [length pre]) = S (length filled))
    by (rewrite length_app; simpl; lia).
  destruct (S (length filled) <? MAXIMUM_ARGUMENTS) eqn:Ed; run.
  - apply Nat.ltb_lt in Ed. rewrite <- Ld, slots_snoc by lia.
    rewrite IH; [|done|done|lia|rewrite !length_app in *; lia].
    by replace (MAXIMUM_ARGUMENTS - length (filled ++ [length pre])) with k by lia.
  - apply Nat.ltb_ge in Ed. assert (k = 0) as -> by lia.
    replace (S (length filled)) with MAXIMUM_ARGUMENTS by lia.
    rewrite parse_execute_loop_done. cbn [terminated].
    rewrite (slots_full (filled ++ [length pre])) by (rewrite Ld; lia). do 3 f_equal.
    unfold overflow. cbn [starts].
    rewrite lookup_app_r by (rewrite Ld; lia). rewrite Ld.
    by replace (MAXIMUM_ARGUMENTS - S (length filled)) with 0 by lia.
Qed.

Lemma token_char_not_NULL t : Forall token_char t → NULL ∉ t.
Proof.
  intros H Hc. rewrite Forall_forall in H. apply H in Hc as [_ Hc]. done.
Qed.

Lemma flat_not_NULL items : tokens_ok items → NULL ∉ flat items.
Proof.
  induction items as [|[t w] r IH]; simpl; [intros _; apply not_elem_of_nil|].
  intros (_ & Ht & Hw & _ & Hr). rewrite !not_elem_of_app.
  auto using token_char_not_NULL, whitespace_no_NULL.
Qed.

Lemma terminate_length w : length (terminate w) = length w.
Proof. by destruct w. Qed.

(** [parse_execute] on separators followed by tokens. *)
Lemma parse_execute_items pre lead items rest st :
  Forall (λ c, is_whitespace c = true) lead → tokens_ok items →
  parse_execute (length pre) (State (pre ++ lead ++ flat items ++ NULL :: rest) st) =
    Ret (ExecuteCommand (slots (starts (length pre + length lead) items)),
         State (pre ++ lead ++ terminated MAXIMUM_ARGUMENTS items ++ NULL :: rest)
           (st ++ overflow (starts (length pre + length lead) items))).
Proof.
  intros Hl Hok. unfold parse_execute. run.
  rewrite string_at_middle, count_whitespace_app, count_whitespace_items by done.
  rewrite Nat.add_0_r, !(app_assoc pre lead), <- length_app.
  set (pre1 := pre ++ lead).
  destruct items as [|[t w] r] eqn:Ei.
  { cbn [flat app terminated starts]. rewrite byte_at_middle.
    by rewrite overflow_small, app_nil_r by (simpl; lia). }
  rewrite <- Ei in *.
  assert (Hb : Ascii.eqb (byte_at (pre1 ++ flat items ++ NULL :: rest) (length pre1)) NULL
               = false).
  { subst items. destruct Hok as (Hn & Ht & _).
    destruct (token_char_head t (w ++ flat r ++ NULL :: rest) Hn Ht) as (c & Hh & Hc).
    cbn [flat]. rewrite <- !app_assoc.
    destruct (t ++ w ++ flat r ++ NULL :: rest) as [|x l]; [done|].
    injection Hh as ->. rewrite byte_at_middle. by apply token_char_eqb in Hc as [-> _]. }
  rewrite Hb. unfold set_argv. cbn [Nat.ltb Nat.leb MAXIMUM_ARGUMENTS]. run.
  change (<[0:=Some (length pre1)]> create_execute_command)
    with (slots [length pre1]).
  rewrite string_at_middle, strlen_terminated by by apply flat_not_NULL.
  pose proof (parse_execute_loop_items items (length (flat items)) pre1 [] st rest)
    as E.
  cbn [length app] in E. rewrite Nat.sub_0_r in E.
  rewrite E; [done|done|by subst items|unfold MAXIMUM_ARGUMENTS; lia|done].
Qed.

Lemma arguments_slots m ptrs :
  arguments m (slots ptrs) = map (cstring m) (take MAXIMUM_ARGUMENTS ptrs).
Proof.
  unfold slots. induction (take MAXIMUM_ARGUMENTS ptrs) as [|p l IH]; simpl.
  - by destruct (MAXIMUM_ARGUMENTS - length ptrs).
  - by rewrite IH.
Qed.

Lemma slots_length ptrs : length (slots ptrs) = MAXIMUM_ARGUMENTS.
Proof.
  unfold slots. rewrite length_app, length_map, length_take, length_replicate. lia.
Qed.

Lemma slots_lookup_lt ptrs i p :
  i < MAXIMUM_ARGUMENTS → ptrs !! i = Some p → slots ptrs !! i = Some (Some p).
Proof.
  intros Hi Hp. unfold slots. pose proof (lookup_lt_Some _ _ _ Hp).
  rewrite lookup_app_l by (rewrite length_map, length_take; lia).
  by rewrite list_lookup_fmap, lookup_take_lt, Hp.
Qed.

Lemma slots_lookup_ge ptrs i :
  length ptrs ≤ i < MAXIMUM_ARGUMENTS → slots ptrs !! i = Some None.
Proof.
  intros Hi. rewrite slots_small by lia.
  rewrite lookup_app_r by (rewrite length_map; lia).
  apply lookup_replicate_2. rewrite length_map. lia.
Qed.

(** The strings at the starts of the terminated tokens are the tokens. *)
Lemma cstring_items items :
  ∀ k pre rest i t w,
    tokens_ok items → i < k → items !! i = Some (t, w) →
    ∃ p, starts (length pre) items !! i = Some p ∧
         cstring (pre ++ terminated k items ++ NULL :: rest) p = t.
Proof.
  induction items as [|[t0 w0] r IH]; intros k pre rest i t w Hok Hi Hl; [done|].
  destruct Hok as (Ht0 & Ht & Hw & Hrw & Hr).
  destruct k as [|k]; [lia|]. cbn [terminated starts].
  destruct i as [|i]; simpl in Hl.
  - injection Hl as -> ->. exists (length pre). split; [done|].
    rewrite <- !app_assoc. destruct w as [|c w]; cbn [terminate app].
    + destruct r; [|by exfalso; apply Hrw]. rewrite terminated_nil.
      apply cstring_terminated. by apply token_char_not_NULL.
    + apply cstring_terminated. by apply token_char_not_NULL.
  - destruct (IH k (pre ++ t0 ++ terminate w0) rest i t w) as (p & Hp & Hc);
      [done|lia|done|].
    exists p. rewrite !length_app, terminate_length, Nat.add_assoc in Hp.
    split; [done|]. by rewrite <- !app_assoc in Hc |- *.
Qed.

(** Every text is separators followed by tokens. *)
Lemma text_items text :
  NULL ∉ text →
  ∃ lead items,
    text = lead ++ flat items ∧ Forall (λ c, is_whitespace c = true) lead ∧
    tokens_ok items.
Proof.
  induction text as [|c text IH]; intros Hn.
  { by exists [], []. }
  apply not_elem_of_cons in Hn as [Hc Hn].
  destruct (IH Hn) as (lead & items & -> & Hl & Hok).
  destruct (is_whitespace c) eqn:Ew.
  { exists (c :: lead), items. by repeat constructor. }
  assert (Hc' : token_char c) by (split; congruence).
  destruct lead as [|x lead].
  - destruct items as [|[t w] r].
    + exists [], [([c], [])]. repeat split; auto. 
    + exists [], ((c :: t, w) :: r). destruct Hok as (? & ? & ? & ? & ?).
      repeat split; auto.
  - exists [], (([c], x :: lead) :: items). simpl. repeat split; auto.
Qed.

Lemma tokens_ok_lookup items i t w :
  tokens_ok items → items !! i = Some (t, w) → t ≠ [] ∧ Forall token_char t.
Proof.
  revert i. induction items as [|[t0 w0] r IH]; intros i Hok Hl; [done|].
  destruct Hok as (Ht0 & Ht & _ & _ & Hr). destruct i as [|i]; simpl in Hl.
  - by injection Hl as -> ->.
  - by eapply IH.
Qed.

Lemma cstrings_items items k pre rest :
  tokens_ok items →
  map (cstring (pre ++ terminated k items ++ NULL :: rest))
      (take k (starts (length pre) items)) =
  map fst (take k items).
Proof.
  intros Hok. apply list_eq. intros i. rewrite !list_lookup_fmap.
  destruct (decide (i < k)) as [Hi|Hi].
  - rewrite !lookup_take_lt by done.
    destruct (items !! i) as [[t w]|] eqn:E.
    + destruct (cstring_items items k pre rest i t w) as (p & -> & Hc); try done.
      simpl. by rewrite Hc.
    + apply lookup_ge_None in E. rewrite lookup_ge_None_2; [done|].
      by rewrite flat_length_starts.
  - by rewrite !lookup_take_ge by lia.
Qed.

Lemma cstring_end m p : byte_at m (p + length (cstring m p)) = NULL.
Proof.
  unfold cstring. rewrite length_take, Nat.min_l by apply strlen_le_length.
  rewrite <- byte_at_string_at. apply strlen_end.
Qed.

Ltac tokens_literal :=
  literal; cbn [tokens_ok];
  repeat match goal with
    | |- _ ∧ _ => split
    | |- True => exact I
    | |- Forall _ [] => constructor
    | |- Forall _ (_ :: _) => constructor
    | |- token_char _ => split; [reflexivity|discriminate]
    | |- is_whitespace _ = _ => reflexivity
    | |- _ ≠ _ => discriminate
    | |- _ → _ => intros _
    end.

(** C3 (as the code behaves).  On a line with more than 16 tokens the first
    16 are the arguments, and there is one more store: the pointer to the
    17th token goes to [argv[16]], behind the 16 slots of the array.  On the
    line of the 20 tokens "a" to "t" that is the pointer to "q", offset 32. *)
Theorem parse_execute_stores_behind_argv :
  (∀ lead items,
     Forall (λ c, is_whitespace c = true) lead → tokens_ok items →
     MAXIMUM_ARGUMENTS < length items →
     ∃ argv s' p,
       parse_execute 0 (line_state (lead ++ flat items)) = Ret (ExecuteCommand argv, s') ∧
       length argv = MAXIMUM_ARGUMENTS ∧
       arguments (memory s') argv = map fst (take MAXIMUM_ARGUMENTS items) ∧
       starts (length lead) items !! MAXIMUM_ARGUMENTS = Some p ∧
       stray s' = [(MAXIMUM_ARGUMENTS, p)]) ∧
  ∃ argv s',
    parse_execute 0 (line_state (chars "a b c d e f g h i j k l m n o p q r s t")) =
      Ret (ExecuteCommand argv, s') ∧
    length argv = MAXIMUM_ARGUMENTS ∧
    arguments (memory s') argv =
      map chars ["a"; "b"; "c"; "d"; "e"; "f"; "g"; "h";
                 "i"; "j"; "k"; "l"; "m"; "n"; "o"; "p"]%string ∧
    stray s' = [(16, 32)] ∧
    cstring (memory s') 32 = chars "q r s t".
Proof.
  split; [|eexists _, _; split; [by vm_compute|]; by vm_compute].
  intros lead items Hl Hok Hn.
  pose proof (parse_execute_items [] lead items [] [] Hl Hok) as E.
  cbn [length app Nat.add] in E.
  assert (El : line_state (lead ++ flat items) = State (lead ++ flat items ++ [NULL]) [])
    by (unfold line_state; by rewrite <- app_assoc).
  destruct (lookup_lt_is_Some_2 (starts (length lead) items) MAXIMUM_ARGUMENTS)
    as [p Hp]; [by rewrite flat_length_starts|].
  unfold overflow in E. rewrite Hp in E.
  eexists _, _, p. split; [by rewrite El|]. cbn [memory stray].
  split; [apply slots_length|]. split; [|done].
  rewrite arguments_slots. by apply (cstrings_items items MAXIMUM_ARGUMENTS lead []).
Qed.

Lemma parse_execute_stores_behind_argv_witness :
  ∃ argv s' p,
    parse_execute 0
      (line_state
         ([] ++ flat (replicate 17 (chars "x", chars " ")))) =
      Ret (ExecuteCommand argv, s') ∧
    stray s' = [(MAXIMUM_ARGUMENTS, p)].
Proof.
  destruct (proj1 parse_execute_stores_behind_argv []
              (replicate 17 (chars "x", chars " ")))
    as (argv & s' & p & E & _ & _ & _ & Hs).
  - constructor.
  - cbn [replicate]. tokens_literal.
  - unfold MAXIMUM_ARGUMENTS. rewrite length_replicate. lia.
  - exists argv, s', p. split; [exact E|exact Hs].
Defined.

(** C6.  A line of separators and [N ≤ 16] tokens, each followed by
    separators (the last one possibly by none): [parse_execute] returns an
    Execute node whose arguments are exactly the [N] tokens in their order.
    Slot [i < N] points to token [i], which ends in a terminator of its own;
    the other slots are null, and nothing is stored behind the array.  When
    the line holds no operator, this node is the result of [parse_command]. *)
Theorem parse_execute_round_trip lead items :
  Forall (λ c, is_whitespace c = true) lead → tokens_ok items →
  length items ≤ MAXIMUM_ARGUMENTS →
  ∃ argv s',
    parse_execute 0 (line_state (lead ++ flat items)) = Ret (ExecuteCommand argv, s') ∧
    (plain (lead ++ flat items) →
     parse_command 0 (line_state (lead ++ flat items)) = Ret (ExecuteCommand argv, s')) ∧
    length argv = MAXIMUM_ARGUMENTS ∧
    arguments (memory s') argv = map fst items ∧
    (∀ i t w, items !! i = Some (t, w) →
       ∃ p, argv !! i = Some (Some p) ∧ cstring (memory s') p = t ∧
            byte_at (memory s') (p + length t) = NULL) ∧
    (∀ i, length items ≤ i < MAXIMUM_ARGUMENTS → argv !! i = Some None) ∧
    stray s' = [].
Proof.
  intros Hl Hok Hn.
  pose proof (parse_execute_items [] lead items [] [] Hl Hok) as E.
  cbn [length app Nat.add] in E.
  assert (El : line_state (lead ++ flat items) = State (lead ++ flat items ++ [NULL]) [])
    by (unfold line_state; by rewrite <- app_assoc).
  assert (Hs : length (starts (length lead) items) ≤ MAXIMUM_ARGUMENTS)
    by by rewrite flat_length_starts.
  rewrite overflow_small in E by done.
  eexists _, _. split; [by rewrite El|].
  split; [|split; [|split; [|split; [|split]]]]; cbn [memory stray].
  - intros Hp. rewrite parse_command_plain, El; [done|].
    cbn [memory line_state]. rewrite line_cstring; [done|].
    rewrite not_elem_of_app. split; [by apply whitespace_no_NULL|by apply flat_not_NULL].
  - apply slots_length.
  - rewrite arguments_slots, (cstrings_items items MAXIMUM_ARGUMENTS lead []) by done.
    by rewrite take_ge.
  - intros i t w Hi. pose proof (lookup_lt_Some _ _ _ Hi) as Hlt.
    destruct (cstring_items items MAXIMUM_ARGUMENTS lead [] i t w) as (p & Hp & Hc);
      [done|lia|done|].
    exists p. split; [apply slots_lookup_lt; [lia|done]|]. split; [done|].
    rewrite <- Hc. apply cstring_end.
  - intros i Hi. apply slots_lookup_ge. by rewrite flat_length_starts.
  - done.
Qed.

Lemma parse_execute_round_trip_witness :
  ∃ argv s',
    parse_execute 0
      (line_state
         (chars " " ++
          flat [(chars "echo", chars "  "); (chars "hi", chars " ");
                (chars "there", chars " ")])) =
      Ret (ExecuteCommand argv, s') ∧
    arguments (memory s') argv = [chars "echo"; chars "hi"; chars "there"].
Proof.
  destruct (parse_execute_round_trip (chars " ")
              [(chars "echo", chars "  "); (chars "hi", chars " ");
               (chars "there", chars " ")])
    as (argv & s' & E & _ & _ & Ha & _).
  - tokens_literal.
  - tokens_literal.
  - unfold MAXIMUM_ARGUMENTS. simpl. lia.
  - exists argv, s'. split; [exact E|exact Ha].
Defined.

(** C10.  Whatever the text at [buffer], the node of [parse_execute] has 16
    slots of which the first [k] are occupied and the others null; every
    occupied slot points to a string that is not empty and holds no
    separator, the separators being space, tab, carriage return, line feed
    and vertical tab. *)
Theorem parse_execute_arguments_well_formed pre text rest st :
  NULL ∉ text →
  ∃ argv s' k,
    parse_execute (length pre) (State (pre ++ text ++ NULL :: rest) st) =
      Ret (ExecuteCommand argv, s') ∧
    length argv = MAXIMUM_ARGUMENTS ∧ k ≤ MAXIMUM_ARGUMENTS ∧
    (∀ i, i < k →
       ∃ p, argv !! i = Some (Some p) ∧ cstring (memory s') p ≠ [] ∧
            Forall (λ c, is_whitespace c = false) (cstring (memory s') p)) ∧
    (∀ i, k ≤ i < MAXIMUM_ARGUMENTS → argv !! i = Some None) ∧
    (∀ c, is_whitespace c = true ↔ c ∈ [" "; "009"; "013"; "010"; "011"]%char).
Proof.
  intros Hn. destruct (text_items text Hn) as (lead & items & -> & Hl & Hok).
  rewrite <- app_assoc, parse_execute_items by done.
  eexists _, _, (length items `min` MAXIMUM_ARGUMENTS).
  split; [done|]. split; [apply slots_length|]. split; [lia|]. cbn [memory].
  split.
  - intros i Hi.
    destruct (lookup_lt_is_Some_2 items i) as [[t w] Hitem]; [lia|].
    destruct (cstring_items items MAXIMUM_ARGUMENTS (pre ++ lead) rest i t w)
      as (p & Hp & Hc); [done|lia|done|].
    rewrite length_app, <- app_assoc in *.
    destruct (tokens_ok_lookup items i t w Hok Hitem) as [Ht0 Ht].
    exists p. split; [apply slots_lookup_lt; [lia|done]|]. rewrite Hc.
    split; [done|]. eapply Forall_impl; [exact Ht|]. by intros c [Hc1 _].
  - split; [|apply is_whitespace_spec].
    intros i Hi. apply slots_lookup_ge. rewrite flat_length_starts. lia.
Qed.

Lemma parse_execute_arguments_well_formed_witness :
  ∃ argv s' k,
    parse_execute 0 (State (chars "ls  -l" ++ [NULL]) []) = Ret (ExecuteCommand argv, s') ∧
    length argv = MAXIMUM_ARGUMENTS ∧ k ≤ MAXIMUM_ARGUMENTS ∧
    (∀ i, i < k →
       ∃ p, argv !! i = Some (Some p) ∧ cstring (memory s') p ≠ [] ∧
            Forall (λ c, is_whitespace c = false) (cstring (memory s') p)) ∧
    (∀ i, k ≤ i < MAXIMUM_ARGUMENTS → argv !! i = Some None) ∧
    (∀ c, is_whitespace c = true ↔ c ∈ [" "; "009"; "013"; "010"; "011"]%char).
Proof.
  refine (parse_execute_arguments_well_formed [] (chars "ls  -l") [] [] _).
  not_in_literal.
Defined.

Lemma terminated_length k items : length (terminated k items) = length (flat items).
Proof.
  revert k. induction items as [|[t w] r IH]; intros [|k]; simpl; try done.
  rewrite !length_app, terminate_length, IH. done.
Qed.

Lemma count_token_app t rest :
  Forall token_char t → count_token (t ++ rest) = length t + count_token rest.
Proof.
  induction 1 as [|c t Hc _ IH]; simpl; [done|].
  apply token_char_eqb in Hc as [-> ->]. simpl. by rewrite IH.
Qed.

(** [parse_redirection_file_name] on separators, a token and whatever
    follows the token. *)
Lemma parse_redirection_file_name_token pre lead t c rest st :
  Forall (λ c, is_whitespace c = true) lead → t ≠ [] → Forall token_char t →
  is_whitespace c = true ∨ c = NULL →
  parse_redirection_file_name (length pre) (State (pre ++ lead ++ t ++ c :: rest) st) =
    Ret (length pre + length lead, State (pre ++ lead ++ t ++ NULL :: rest) st).
Proof.
  intros Hl Ht0 Ht Hc. unfold parse_redirection_file_name. run.
  destruct (token_char_head t (c :: rest) Ht0 Ht) as (x & Hx & Hxc).
  assert (Hw0 : count_whitespace (t ++ c :: rest) = 0).
  { destruct t as [|y t]; [done|]. injection Hx as ->. simpl.
    by apply token_char_eqb in Hxc as [_ ->]. }
  assert (Ht1 : count_token (c :: rest) = 0).
  { simpl. by destruct Hc as [->| ->]. }
  rewrite string_at_middle, count_whitespace_app, Hw0, Nat.add_0_r by done.
  rewrite !(app_assoc pre lead), <- length_app. set (pre1 := pre ++ lead).
  rewrite string_at_middle, count_token_app, Ht1, Nat.add_0_r by done.
  rewrite !(app_assoc pre1 t), <- length_app, insert_middle, <- !app_assoc.
  assert (Hb : byte_at (pre1 ++ t ++ NULL :: rest) (length pre1) = x).
  { destruct t as [|y t]; [done|]. injection Hx as ->. apply byte_at_middle. }
  rewrite Hb. by apply token_char_eqb in Hxc as [-> _].
Qed.

(** The tree of [a | b > f], with the arguments and the file name read from
    the buffer. *)
Lemma parse_pipe_redirection_view la ia lb ib lf t w :
  Forall (λ c, is_whitespace c = true) la → tokens_ok ia →
  Forall (λ c, is_whitespace c = true) lb → tokens_ok ib →
  Forall (λ c, is_whitespace c = true) lf → t ≠ [] → Forall token_char t →
  NULL ∉ w → (∀ c, head w = Some c → is_whitespace c = true) →
  plain (la ++ flat ia) → plain (lb ++ flat ib) → plain (lf ++ t ++ w) →
  ∃ command s',
    parse_command 0
      (line_state ((la ++ flat ia) ++ "|"%char :: (lb ++ flat ib) ++ ">"%char :: lf ++ t ++ w))
      = Ret (command, s') ∧
    view (memory s') command =
      Piped (Execute (map fst (take MAXIMUM_ARGUMENTS ia)))
        (Redirect (Execute (map fst (take MAXIMUM_ARGUMENTS ib))) t
           (Z.lor O_WRONLY O_CREATE) 1).
Proof.
  intros Hla Hia Hlb Hib Hlf Ht0 Ht Hw Hwh Pa Pb Pf.
  assert (Na : NULL ∉ la ++ flat ia).
  { rewrite not_elem_of_app. auto using whitespace_no_NULL, flat_not_NULL. }
  assert (Nb : NULL ∉ lb ++ flat ib).
  { rewrite not_elem_of_app. auto using whitespace_no_NULL, flat_not_NULL. }
  assert (Nf : NULL ∉ lf ++ t ++ w).
  { rewrite !not_elem_of_app. auto using whitespace_no_NULL, token_char_not_NULL. }
  rewrite parse_command_split_pipe_redirection by done.
  unfold line_state. run.
  set (a := la ++ flat ia). set (b := lb ++ flat ib). set (f := lf ++ t ++ w).
  (* the left command *)
  replace (<[length a:=NULL]> ((a ++ "|"%char :: b ++ ">"%char :: f) ++ [NULL]))
    with ([] ++ la ++ flat ia ++ NULL :: b ++ ">"%char :: f ++ [NULL]).
  2:{ rewrite <- (app_assoc a). cbn [app]. rewrite insert_middle. subst a.
      rewrite <- !app_assoc. cbn [app]. by rewrite <- ?app_assoc. }
  rewrite (parse_execute_items [] la ia) by done. run. cbn [length app Nat.add].
  set (P1 := la ++ terminated MAXIMUM_ARGUMENTS ia ++ [NULL]).
  assert (L1 : length P1 = length a + 1).
  { subst P1 a. rewrite !length_app, terminated_length. simpl. lia. }
  (* the right command *)
  replace (<[length a + 1 + length b:=NULL]>
             (la ++ terminated MAXIMUM_ARGUMENTS ia ++ NULL :: b ++ ">"%char :: f ++ [NULL]))
    with (P1 ++ lb ++ flat ib ++ NULL :: f ++ [NULL]).
  2:{ replace (la ++ terminated MAXIMUM_ARGUMENTS ia ++ NULL :: b ++ ">"%char :: f ++ [NULL])
        with ((P1 ++ b) ++ ">"%char :: f ++ [NULL])
        by (subst P1; rewrite <- !app_assoc; simpl; by rewrite <- ?app_assoc).
      replace (length a + 1 + length b) with (length (P1 ++ b))
        by (rewrite length_app; lia).
      rewrite insert_middle. subst b. by rewrite <- !app_assoc. }
  rewrite <- L1, (parse_execute_items P1 lb ib) by done. run.
  set (P2 := P1 ++ lb ++ terminated MAXIMUM_ARGUMENTS ib ++ [NULL]).
  assert (L2 : length P2 = length P1 + length b + 1).
  { subst P2 b. rewrite !length_app, terminated_length. simpl. lia. }
  (* the file name *)
  assert (Hr : ∃ c rest, w ++ [NULL] = c :: rest ∧ (is_whitespace c = true ∨ c = NULL)).
  { destruct w as [|c w]; [by exists NULL, []; auto|].
    exists c, (w ++ [NULL]). split; [done|]. left. by apply Hwh. }
  destruct Hr as (c & rest & Er & Hc).
  replace (P1 ++ lb ++ terminated MAXIMUM_ARGUMENTS ib ++ NULL :: f ++ [NULL])
    with (P2 ++ lf ++ t ++ c :: rest)
    by (subst P2 f; rewrite <- Er, <- !app_assoc; cbn [app]; by rewrite <- ?app_assoc).
  rewrite <- L2, parse_redirection_file_name_token by done. run.
  eexists _, _. split; [done|]. cbn [memory view].
  set (m := P2 ++ lf ++ t ++ NULL :: rest).
  assert (A1 : arguments m (slots (starts (length la) ia))
               = map fst (take MAXIMUM_ARGUMENTS ia)).
  { rewrite arguments_slots.
    replace m
      with (la ++ terminated MAXIMUM_ARGUMENTS ia ++
            NULL :: lb ++ terminated MAXIMUM_ARGUMENTS ib ++ NULL :: lf ++ t ++ NULL :: rest)
      by (subst m P2 P1; rewrite <- !app_assoc; cbn [app]; by rewrite <- ?app_assoc).
    by apply cstrings_items. }
  assert (A2 : arguments m (slots (starts (length P1 + length lb) ib))
               = map fst (take MAXIMUM_ARGUMENTS ib)).
  { rewrite arguments_slots, <- length_app.
    replace m
      with ((P1 ++ lb) ++ terminated MAXIMUM_ARGUMENTS ib ++ NULL :: lf ++ t ++ NULL :: rest)
      by (subst m P2; rewrite <- !app_assoc; cbn [app]; by rewrite <- ?app_assoc).
    by apply cstrings_items. }
  assert (A3 : cstring m (length P2 + length lf) = t).
  { subst m. rewrite (app_assoc P2 lf), <- length_app.
    apply cstring_terminated. by apply token_char_not_NULL. }
  by rewrite A1, A2, A3.
Qed.

(** C9.  On a line [a | b > f], where [a], [b] and [f] hold no operator, the
    split at '|' comes first: the text before it is parsed as an Execute
    node, the text behind it is split at '>' into an Execute node and a file
    name, and the result is Pipe(Execute, Redirect(Execute, file,
    O_WRONLY | O_CREATE, 1)).  When [f] holds a token, that tree is returned:
    its arguments are the tokens of [a] and of [b] (at most 16 each) and its
    file name is the first token of [f].  So it is for the line "a | b > f". *)
Theorem parse_command_pipe_then_redirection :
  (∀ a b f,
     NULL ∉ a → NULL ∉ b → NULL ∉ f → plain a → plain b → plain f →
     parse_command 0 (line_state (a ++ "|"%char :: b ++ ">"%char :: f)) =
       (store (length a) NULL ;;
        p_left_command <- parse_execute 0 ;;
        store (length a + 1 + length b) NULL ;;
        p_redirection_command <- parse_execute (length a + 1) ;;
        p_redirection_file_name <-
          parse_redirection_file_name (length a + 1 + length b + 1) ;;
        ret (PipeCommand p_left_command
               (RedirectionCommand p_redirection_command p_redirection_file_name
                  (Z.lor O_WRONLY O_CREATE) 1)))
         (line_state (a ++ "|"%char :: b ++ ">"%char :: f))) ∧
  (∀ la ia lb ib lf t w,
     Forall (λ c, is_whitespace c = true) la → tokens_ok ia →
     Forall (λ c, is_whitespace c = true) lb → tokens_ok ib →
     Forall (λ c, is_whitespace c = true) lf → t ≠ [] → Forall token_char t →
     NULL ∉ w → (∀ c, head w = Some c → is_whitespace c = true) →
     plain (la ++ flat ia) → plain (lb ++ flat ib) → plain (lf ++ t ++ w) →
     ∃ command s',
       parse_command 0
         (line_state
            ((la ++ flat ia) ++ "|"%char :: (lb ++ flat ib) ++ ">"%char :: lf ++ t ++ w))
         = Ret (command, s') ∧
       view (memory s') command =
         Piped (Execute (map fst (take MAXIMUM_ARGUMENTS ia)))
           (Redirect (Execute (map fst (take MAXIMUM_ARGUMENTS ib))) t
              (Z.lor O_WRONLY O_CREATE) 1)) ∧
  parsed (parse_command 0 (line_state (chars "a | b > f"))) =
    Some (Piped (Execute [chars "a"])
            (Redirect (Execute [chars "b"]) (chars "f") (Z.lor O_WRONLY O_CREATE) 1)).
Proof.
  split; [exact parse_command_split_pipe_redirection|].
  split; [exact parse_pipe_redirection_view|by vm_compute].
Qed.

Ltac plain_literal :=
  literal; cbn [flat app];
  let c := fresh in let Hc := fresh in
  intros c Hc [ -> | [ -> | [ -> | -> ] ] ]; revert Hc; not_in_literal.

Lemma parse_command_pipe_then_redirection_witness :
  ∃ command s',
    parse_command 0
      (line_state
         (([] ++ flat [(chars "ls", chars " "); (chars "-l", chars " ")]) ++
          "|"%char :: (chars " " ++ flat [(chars "wc", chars " ")]) ++
          ">"%char :: chars " " ++ chars "out" ++ []))
      = Ret (command, s') ∧
    view (memory s') command =
      Piped (Execute [chars "ls"; chars "-l"])
        (Redirect (Execute [chars "wc"]) (chars "out") (Z.lor O_WRONLY O_CREATE) 1).
Proof.
  apply (proj1 (proj2 parse_command_pipe_then_redirection)
           [] [(chars "ls", chars " "); (chars "-l", chars " ")]
           (chars " ") [(chars "wc", chars " ")]
           (chars " ") (chars "out") []).
  - constructor.
  - tokens_literal.
  - tokens_literal.
  - tokens_literal.
  - tokens_literal.
  - discriminate.
  - tokens_literal.
  - apply not_elem_of_nil.
  - discriminate.
  - plain_literal.
  - plain_literal.
  - plain_literal.
Defined.

(** ** Further properties *)

(** X1.  [strrchr] finds the last occurrence: for a character other than the
    terminator it returns the pointer to its last occurrence in the string,
    and the null pointer when the string does not hold it. *)
Theorem strrchr_last_occurrence pre t rest st c :
  NULL ∉ t → c ≠ NULL →
  (∀ i, last_at t c i →
        strrchr (length pre) c (State (pre ++ t ++ NULL :: rest) st) =
          Ret (Some (length pre + i), State (pre ++ t ++ NULL :: rest) st)) ∧
  (c ∉ t →
   strrchr (length pre) c (State (pre ++ t ++ NULL :: rest) st) =
     Ret (None, State (pre ++ t ++ NULL :: rest) st)).
Proof.
  intros Hn Hc. split.
  - intros i Hi. unfold strrchr, gets. cbn [memory].
    by rewrite (last_at_strrchr _ _ t rest c i) by (done || apply string_at_middle).
  - intros Hout. unfold strrchr, gets. cbn [memory].
    rewrite strrchr_plain; [done|done|].
    by rewrite cstring_terminated.
Qed.

Lemma strrchr_last_occurrence_witness :
  strrchr 0 ">" (line_state (chars "a > b > c")) =
    Ret (Some 6, line_state (chars "a > b > c")).
Proof.
  refine (proj1 (strrchr_last_occurrence [] (chars "a > b > c") [] [] ">" _ _) 6 _).
  - not_in_literal.
  - discriminate.
  - at_literal.
Defined.

(** X2.  Asked for the terminator, [strrchr] returns the pointer to the end
    of the string, whatever the buffer: its scan starts at the terminator. *)
Theorem strrchr_terminator p s :
  strrchr p NULL s = Ret (Some (p + strlen (string_at (memory s) p)), s).
Proof.
  unfold strrchr, gets.
  assert (E : byte_at (memory s) (p + strlen (string_at (memory s) p)) = NULL)
    by (rewrite <- byte_at_string_at; apply strlen_end).
  destruct (strlen (string_at (memory s) p)) as [|k]; cbn [strrchr_from]; by rewrite E.
Qed.

(** X3.  [parse_command] never writes outside the string it parses.  Either
    it returns a node, and then the buffer has its length and every byte
    before [buffer] and from the terminator of the string on is what it was;
    or it is the fatal error of a missing file name and nothing else. *)
Theorem parse_command_stays_in_string buffer s :
  (∃ command s',
     parse_command buffer s = Ret (command, s') ∧
     length (memory s') = length (memory s) ∧
     ∀ q, q < buffer ∨ buffer + strlen (string_at (memory s) buffer) ≤ q →
          memory s' !! q = memory s !! q) ∨
  parse_command buffer s =
    Call (Fprintf 2 (chars "Failed to parse filename for redirection" ++ newline))
      (λ _, Exit 1).
Proof.
  destruct (parse_command_parses buffer s) as [(c & s' & E & L & W)|E].
  - left. by exists c, s'.
  - by right.
Qed.

(** X4.  A line without ';' that contains '|' is split at the first '|': the
    byte becomes the terminator, the text before it (which holds no '|') and
    the text behind it are parsed by [parse_command], and the two results
    make a Pipe node. *)
Theorem parse_command_pipe_first line :
  NULL ∉ line → ";"%char ∉ line → "|"%char ∈ line →
  ∃ i,
    first_at line "|" i ∧
    parse_command 0 (line_state line) =
      (store i NULL ;;
       p_left_command <- parse_command 0 ;;
       p_right_command <- parse_command (i + 1) ;;
       ret (PipeCommand p_left_command p_right_command)) (line_state line) ∧
    cstring (<[i := NULL]> (line ++ [NULL])) 0 = take i line ∧
    cstring (<[i := NULL]> (line ++ [NULL])) (i + 1) = drop (i + 1) line.
Proof.
  intros Hn Hs Hb. destruct (first_at_exists _ _ Hb) as (i & Hf).
  exists i. split; [done|]. split; [|split].
  - rewrite parse_command_unfold. unfold line_state.
    rewrite parse_command_body_eq.
    rewrite strchr_plain by by rewrite line_cstring.
    unfold string_at at 1. rewrite drop_0.
    rewrite (first_at_strchr line [] "|" i) by done.
    unfold parse_pipe_body. cbn [Nat.add]. by rewrite Nat.sub_0_r.
  - destruct Hf as [Hi _]. rewrite (insert_terminator line [NULL] i "|") by done.
    apply (cstring_terminated [] (take i line)).
    intros Hc. by apply subseteq_take in Hc.
  - destruct Hf as [Hi _]. pose proof (lookup_lt_Some _ _ _ Hi) as Hlt.
    rewrite (insert_terminator line [NULL] i "|") by done.
    rewrite Nat.add_1_r, (cons_middle NULL), app_assoc.
    apply (cstring_terminated' (take i line ++ [NULL]) (drop (S i) line) []).
    + rewrite length_app, length_take. simpl. lia.
    + intros Hc. by apply subseteq_drop in Hc.
Qed.

Lemma parse_command_pipe_first_witness :
  ∃ i,
    first_at (chars "a|b|c") "|" i ∧
    parse_command 0 (line_state (chars "a|b|c")) =
      (store i NULL ;;
       p_left_command <- parse_command 0 ;;
       p_right_command <- parse_command (i + 1) ;;
       ret (PipeCommand p_left_command p_right_command)) (line_state (chars "a|b|c")).
Proof.
  destruct (parse_command_pipe_first (chars "a|b|c")) as (i & Hf & E & _).
  - not_in_literal.
  - not_in_literal.
  - in_literal.
  - exists i. split; [exact Hf|exact E].
Defined.

(** X5.  A line with '>' and without ';', '|' and '<' is split at the last
    '>': the text before it, earlier '>' included, is parsed by
    [parse_command] and gives the inner command of a Redirect node for
    writing to descriptor 1.  In the same way a line with '<' only is split
    at the last '<', for reading on descriptor 0. *)
Theorem parse_command_redirection_last line c :
  NULL ∉ line → ";"%char ∉ line → "|"%char ∉ line →
  (c = ">"%char ∧ "<"%char ∉ line ∨ c = "<"%char ∧ ">"%char ∉ line) → c ∈ line →
  ∃ i,
    last_at line c i ∧
    parse_command 0 (line_state line) =
      (store i NULL ;;
       p_redirection_command <- parse_command 0 ;;
       p_redirection_file_name <- parse_redirection_file_name (i + 1) ;;
       ret (if Ascii.eqb c "<"
            then RedirectionCommand p_redirection_command p_redirection_file_name O_RDONLY 0
            else RedirectionCommand p_redirection_command p_redirection_file_name
                   (Z.lor O_WRONLY O_CREATE) 1)) (line_state line) ∧
    cstring (<[i := NULL]> (line ++ [NULL])) 0 = take i line.
Proof.
  intros Hn Hs Hb Hc Hin. destruct (last_at_exists _ _ Hin) as (i & Hl).
  exists i. split; [done|].
  assert (Hbyte : byte_at (line ++ [NULL]) i = c).
  { destruct Hl as [Hi _]. unfold byte_at.
    rewrite lookup_app_l by by eapply lookup_lt_Some. by rewrite Hi. }
  split.
  - rewrite parse_command_unfold. unfold line_state. rewrite parse_command_body_eq.
    rewrite !strchr_plain by by rewrite line_cstring.
    destruct Hc as [[-> Ho]|[-> Ho]].
    + rewrite (last_at_strrchr _ 0 line [] ">" i) by done.
      rewrite strrchr_plain by (done || by rewrite line_cstring).
      cbn [Nat.add]. fold (parse_redirection 0 i).
      rewrite parse_redirection_eq by lia. cbn [memory]. by rewrite Hbyte.
    + rewrite (last_at_strrchr _ 0 line [] "<" i) by done.
      rewrite strrchr_plain by (done || by rewrite line_cstring).
      cbn [Nat.add]. fold (parse_redirection 0 i).
      rewrite parse_redirection_eq by lia. cbn [memory]. by rewrite Hbyte.
  - destruct Hl as [Hi _]. rewrite (insert_terminator line [NULL] i c) by done.
    apply (cstring_terminated [] (take i line)).
    intros Hx. by apply subseteq_take in Hx.
Qed.

Lemma parse_command_redirection_last_witness :
  ∃ i,
    last_at (chars "a > b > c") ">" i ∧
    parse_command 0 (line_state (chars "a > b > c")) =
      (store i NULL ;;
       p_redirection_command <- parse_command 0 ;;
       p_redirection_file_name <- parse_redirection_file_name (i + 1) ;;
       ret (RedirectionCommand p_redirection_command p_redirection_file_name
              (Z.lor O_WRONLY O_CREATE) 1)) (line_state (chars "a > b > c")).
Proof.
  destruct (parse_command_redirection_last (chars "a > b > c") ">")
    as (i & Hl & E & _).
  - not_in_literal.
  - not_in_literal.
  - not_in_literal.
  - left. split; [reflexivity|not_in_literal].
  - in_literal.
  - exists i. split; [exact Hl|exact E].
Defined.

(** X6.  The file name of a redirection is the first token behind the
    symbol: the separators before it are skipped, the byte behind it (a
    separator or the terminator) becomes the terminator, and what follows on
    the line is neither read nor changed. *)
Theorem parse_redirection_file_name_first_token pre lead t c rest st :
  Forall (λ c, is_whitespace c = true) lead → t ≠ [] → Forall token_char t →
  is_whitespace c = true ∨ c = NULL →
  parse_redirection_file_name (length pre) (State (pre ++ lead ++ t ++ c :: rest) st) =
    Ret (length pre + length lead, State (pre ++ lead ++ t ++ NULL :: rest) st) ∧
  cstring (pre ++ lead ++ t ++ NULL :: rest) (length pre + length lead) = t.
Proof.
  intros Hl Ht0 Ht Hc. split; [by apply parse_redirection_file_name_token|].
  rewrite (app_assoc pre lead), <- length_app.
  apply cstring_terminated. by apply token_char_not_NULL.
Qed.

Lemma parse_redirection_file_name_first_token_witness :
  parse_redirection_file_name 5 (State (chars "cmd >  out  more" ++ [NULL]) []) =
    Ret (7, State (chars "cmd >  out" ++ NULL :: chars " more" ++ [NULL]) []).
Proof.
  refine (proj1 (parse_redirection_file_name_first_token
                   (chars "cmd >") (chars "  ") (chars "out") " "
                   (chars " more" ++ [NULL]) [] _ _ _ _)).
  - tokens_literal.
  - discriminate.
  - tokens_literal.
  - by left.
Defined.

(** X7.  With 16 tokens or more on the line every slot of [argv] holds a
    pointer: the array that [run_command] passes to [exec] has no null slot
    to end the argument list. *)
Theorem parse_execute_fills_argv lead items :
  Forall (λ c, is_whitespace c = true) lead → tokens_ok items →
  MAXIMUM_ARGUMENTS ≤ length items →
  ∃ argv s',
    parse_execute 0 (line_state (lead ++ flat items)) = Ret (ExecuteCommand argv, s') ∧
    length argv = MAXIMUM_ARGUMENTS ∧
    (∀ i, i < MAXIMUM_ARGUMENTS → ∃ p, argv !! i = Some (Some p)) ∧
    length (arguments (memory s') argv) = MAXIMUM_ARGUMENTS.
Proof.
  intros Hl Hok Hn.
  pose proof (parse_execute_items [] lead items [] [] Hl Hok) as E.
  cbn [length app Nat.add] in E.
  assert (El : line_state (lead ++ flat items) = State (lead ++ flat items ++ [NULL]) [])
    by (unfold line_state; by rewrite <- app_assoc).
  eexists _, _. split; [by rewrite El|]. split; [apply slots_length|]. split.
  - intros i Hi.
    destruct (lookup_lt_is_Some_2 (starts (length lead) items) i) as [p Hp];
      [rewrite flat_length_starts; lia|].
    exists p. by apply slots_lookup_lt.
  - rewrite arguments_slots, length_map, length_take, flat_length_starts. lia.
Qed.

Lemma parse_execute_fills_argv_witness :
  ∃ argv s',
    parse_execute 0 (line_state ([] ++ flat (replicate 16 (chars "x", chars " ")))) =
      Ret (ExecuteCommand argv, s') ∧
    ∀ i, i < MAXIMUM_ARGUMENTS → ∃ p, argv !! i = Some (Some p).
Proof.
  destruct (parse_execute_fills_argv [] (replicate 16 (chars "x", chars " ")))
    as (argv & s' & E & _ & H & _).
  - constructor.
  - cbn [replicate]. tokens_literal.
  - unfold MAXIMUM_ARGUMENTS. rewrite length_replicate. lia.
  - exists argv, s'. split; [exact E|exact H].
Defined.

(** ** The executor, path by path *)

Ltac run_exec :=
  cbv beta delta [bind gets ret exec open fprintf do_call safe_fork error exit format_s];
  cbn [proc_bind fst snd memory stray].

Ltac walk :=
  repeat first
    [ apply paths_exit; solve [auto]
    | apply paths_call; [solve [auto]|intros ?]
    | match goal with
      | |- context [if ?b then _ else _] => destruct b; run_exec
      end ].

(** X8.  Whatever the command and whatever the kernel answers,
    [run_command] ends the process with status 0 or 1 only. *)
Theorem run_command_exit_status command s :
  on_all_paths (λ _ _, True) (λ status, status = 0%Z ∨ status = 1%Z)
    (run_command command s).
Proof.
  revert s. induction command as [argv|l IHl r IHr|l IHl r IHr|c IH f mode fd];
    intros s; cbn [run_command].
  - destruct (argv !! 0) as [[p|]|]; run_exec; walk.
  - run_exec. walk; auto.
  - run_exec. walk; auto.
  - run_exec. walk; auto.
Qed.

(** X9.  [run_command] forks only for Sequence and Pipe nodes and opens a
    file only for Redirect nodes: a command without the former never calls
    [fork], a command without the latter never calls [open]. *)
Theorem run_command_forks_and_opens command s :
  (¬ has_fork_node command →
   on_all_paths (λ R c, ¬ is_fork c) (λ _, True) (run_command command s)) ∧
  (¬ has_redirection_node command →
   on_all_paths (λ R c, ¬ is_open c) (λ _, True) (run_command command s)).
Proof.
  split; revert s;
    induction command as [argv|l IHl r IHr|l IHl r IHr|c IH f mode fd];
    intros s H; cbn [run_command has_fork_node has_redirection_node] in *;
    try done.
  - destruct (argv !! 0) as [[p|]|]; run_exec; walk.
  - run_exec. walk. auto.
  - destruct (argv !! 0) as [[p|]|]; run_exec; walk.
  - run_exec. walk; auto.
  - run_exec. walk; auto.
Qed.

Lemma run_command_forks_and_opens_witness :
  on_all_paths (λ R c, ¬ is_fork c) (λ _, True)
    (run_command (RedirectionCommand (ExecuteCommand [Some 0]) 2 O_RDONLY 0)
       (line_state (chars "a<f"))).
Proof.
  apply (proj1 (run_command_forks_and_opens
                  (RedirectionCommand (ExecuteCommand [Some 0]) 2 O_RDONLY 0)
                  (line_state (chars "a<f")))).
  intros H. exact H.
Defined.




(** ** The parser against the tree of the text *)

Lemma tokens_whitespace_app lead s :
  Forall (λ c, is_whitespace c = true) lead → tokens (lead ++ s) = tokens s.
Proof. induction 1 as [|c lead Hc _ IH]; simpl; [done|]. by rewrite Hc. Qed.

Lemma tokens_cons c s :
  tokens (c :: s) =
  if is_whitespace c then tokens s
  else if match s with c' :: _ => is_whitespace c' | [] => true end
       then [c] :: tokens s
       else match tokens s with
            | t :: ts => (c :: t) :: ts
            | [] => [[c]]
            end.
Proof. done. Qed.

Lemma tokens_token t rest :
  t ≠ [] → Forall token_char t →
  (∀ c, head rest = Some c → is_whitespace c = true) →
  tokens (t ++ rest) = t :: tokens rest.
Proof.
  intros Hn Ht Hr. induction Ht as [|c t [Hc _] Ht IH]; [done|].
  rewrite <- app_comm_cons, tokens_cons, Hc. destruct t as [|c2 t].
  - rewrite app_nil_l. destruct rest as [|x rest]; [done|].
    by rewrite (Hr x eq_refl).
  - rewrite IH by done. rewrite <- app_comm_cons.
    apply Forall_cons in Ht as [[Hc2 _] Ht]. by rewrite Hc2.
Qed.

Lemma tokens_items items : tokens_ok items → tokens (flat items) = map fst items.
Proof.
  induction items as [|[t w] r IH]; [done|]. intros (Ht0 & Ht & Hw & Hrw & Hr).
  cbn [flat map fst]. rewrite tokens_token, tokens_whitespace_app, IH; try done.
  intros c Hc. destruct w as [|x w].
  - destruct r; [done|]. by exfalso; apply Hrw.
  - injection Hc as <-. by apply Forall_cons in Hw as [Hx _].
Qed.

Lemma first_index_spec c t :
  match first_index c t with
  | Some i => first_at t c i
  | None => c ∉ t
  end.
Proof.
  induction t as [|x t IH]; simpl; [apply not_elem_of_nil|].
  destruct (Ascii.eqb_spec x c) as [->|Hne].
  { split; [done|]. intros j Hj. lia. }
  destruct (first_index c t) as [i|]; simpl.
  - destruct IH as [Hi Hf]. split; [done|].
    intros [|j] Hj; simpl; [congruence|]. apply Hf. lia.
  - apply not_elem_of_cons. split; [congruence|done].
Qed.

Lemma last_index_spec c t :
  match last_index c t with
  | Some i => last_at t c i
  | None => c ∉ t
  end.
Proof.
  induction t as [|x t IH]; simpl; [apply not_elem_of_nil|].
  destruct (last_index c t) as [i|].
  - destruct IH as [Hi Hl]. split; [done|].
    intros [|j] Hj; [lia|]. simpl. apply Hl. lia.
  - destruct (Ascii.eqb_spec x c) as [->|Hne].
    + split; [done|]. intros [|j] Hj; [lia|]. simpl. intros E.
      apply IH. by eapply list_elem_of_lookup_2.
    + apply not_elem_of_cons. split; [congruence|done].
Qed.

Lemma strchr_first_index t rest c :
  NULL ∉ t → strchr (t ++ NULL :: rest) c = first_index c t.
Proof.
  intros Hn. pose proof (first_index_spec c t) as H.
  destruct (first_index c t) as [i|].
  - by apply first_at_strchr.
  - apply strchr_absent. intros i Hi E. rewrite strlen_terminated in Hi by done.
    rewrite lookup_app_l in E by done. apply H. by eapply list_elem_of_lookup_2.
Qed.

Lemma strrchr_last_index m p t rest c :
  string_at m p = t ++ NULL :: rest → NULL ∉ t → c ≠ NULL →
  strrchr_from m p (strlen (string_at m p)) c = (λ i, p + i) <$> last_index c t.
Proof.
  intros E Hn Hc. pose proof (last_index_spec c t) as H.
  destruct (last_index c t) as [i|]; simpl.
  - by eapply last_at_strrchr.
  - apply strrchr_plain; [done|]. by rewrite (cstring_string_at _ _ _ _ E).
Qed.

Lemma first_at_split (t : list ascii) c i :
  first_at t c i → t = take i t ++ c :: drop (S i) t ∧ length (take i t) = i.
Proof.
  intros [Hi _]. pose proof (lookup_lt_Some _ _ _ Hi). split.
  - by rewrite take_drop_middle.
  - rewrite length_take. lia.
Qed.

(** [parse_execute] against the tokens of the text. *)
Lemma parse_execute_refines pre text rest st :
  NULL ∉ text →
  refines (parse_execute (length pre) (State (pre ++ text ++ NULL :: rest) st))
    pre text rest (Some (Execute (take MAXIMUM_ARGUMENTS (tokens text)))).
Proof.
  intros Hn. destruct (text_items text Hn) as (lead & items & -> & Hl & Hok).
  rewrite <- app_assoc, parse_execute_items by done.
  exists (ExecuteCommand (slots (starts (length pre + length lead) items))),
    (lead ++ terminated MAXIMUM_ARGUMENTS items),
    (st ++ overflow (starts (length pre + length lead) items)).
  split; [by rewrite <- app_assoc|]. split.
  { by rewrite !length_app, terminated_length. }
  intros pre2 rest2 Hp. cbn [view]. f_equal.
  rewrite arguments_slots, tokens_whitespace_app, tokens_items by done.
  rewrite <- Hp, <- length_app, <- app_assoc, (app_assoc pre2 lead).
  rewrite cstrings_items by done. by rewrite fmap_take.
Qed.

Lemma insert_split (pre L R : list ascii) d x :
  <[length pre + length L := x]> (pre ++ (L ++ d :: R)) = pre ++ L ++ x :: R.
Proof.
  rewrite insert_app_r. f_equal.
  replace (length L) with (length L + 0) by lia.
  by rewrite insert_app_r.
Qed.

Ltac lengths :=
  repeat progress (rewrite ?length_app, ?terminate_length; cbn [length]).

Ltac flatten := repeat progress (rewrite <- ?app_assoc; cbn [app]).

Section step.

Variable rec : nat → M Command.
Variable specf : list ascii → option tree.
Variable n : nat.
Hypothesis rec_refines : ∀ pre text rest st,
  NULL ∉ text → length text ≤ n →
  refines (rec (length pre) (State (pre ++ text ++ NULL :: rest) st))
    pre text rest (specf text).

(** The common shape of [parse_list] and [parse_pipe]. *)
Lemma split_refines mk mkT pre L d R rest st :
  (∀ m l r, view m (mk l r) = mkT (view m l) (view m r)) →
  NULL ∉ L → NULL ∉ R → length L ≤ n → length R ≤ n →
  refines
    ((store (length pre + length L) NULL ;;
      l <- rec (length pre) ;;
      r <- rec (length pre + length L + 1) ;;
      ret (mk l r)) (State (pre ++ (L ++ d :: R) ++ NULL :: rest) st))
    pre (L ++ d :: R) rest
    (match specf L with
     | Some l => match specf R with Some r => Some (mkT l r) | None => None end
     | None => None
     end).
Proof.
  intros Hmk HL HR HLn HRn. run.
  rewrite (app_assoc pre), insert_app_l
    by (rewrite !length_app; simpl; lia).
  rewrite insert_split, <- !app_assoc. cbn [app].
  pose proof (rec_refines pre L (R ++ NULL :: rest) st HL HLn) as H1.
  destruct (specf L) as [tl|]; cbn [refines] in H1; [|by rewrite H1].
  destruct H1 as (cl & L' & st1 & -> & HL' & Hvl). cbn [proc_bind fst snd].
  pose proof (rec_refines (pre ++ L' ++ [NULL]) R rest st1 HR HRn) as H2.
  rewrite !length_app, HL' in H2. cbn [length] in H2.
  rewrite Nat.add_assoc, <- !app_assoc in H2. cbn [app] in H2.
  destruct (specf R) as [tr|]; cbn [refines] in H2; [|by rewrite H2].
  destruct H2 as (cr & R' & st2 & -> & HR' & Hvr). cbn [proc_bind fst snd].
  exists (mk cl cr), (L' ++ NULL :: R'), st2. split; [|split].
  - rewrite <- !app_assoc. cbn [app]. by rewrite <- ?app_assoc.
  - rewrite !length_app. simpl. lia.
  - intros pre2 rest2 Hp. rewrite Hmk. f_equal.
    + rewrite <- app_assoc. cbn [app]. by apply Hvl.
    + specialize (Hvr (pre2 ++ L' ++ [NULL]) rest2).
      rewrite <- !app_assoc in Hvr.
      rewrite <- ?app_assoc. cbn [app] in Hvr |- *. apply Hvr.
      rewrite !length_app. lia.
Qed.

(** [parse_redirection] with the symbol [d] between the text [L] and the
    text [F] of the file name. *)
Lemma redirection_refines pre L d F rest st :
  NULL ∉ L → NULL ∉ F → length L ≤ n →
  refines
    (parse_redirection_body rec (length pre) (length pre + length L)
       (State (pre ++ (L ++ d :: F) ++ NULL :: rest) st))
    pre (L ++ d :: F) rest
    (match specf L with
     | Some inner =>
         match tokens F with
         | file :: _ =>
             if Ascii.eqb d "<" then Some (Redirect inner file O_RDONLY 0)
             else Some (Redirect inner file (Z.lor O_WRONLY O_CREATE) 1)
         | [] => None
         end
     | None => None
     end).
Proof.
  intros HL HF HLn. unfold parse_redirection_body. run.
  replace (length pre + (length pre + length L - length pre))
    with (length pre + length L) by lia.
  replace (length pre + (length pre + length L - length pre + 1))
    with (length pre + length L + 1) by lia.
  assert (Hd : byte_at (pre ++ (L ++ d :: F) ++ NULL :: rest)
                 (length pre + length L) = d).
  { rewrite <- app_assoc, app_assoc, <- length_app. apply byte_at_middle. }
  rewrite Hd.
  rewrite (app_assoc pre), insert_app_l
    by (rewrite !length_app; simpl; lia).
  rewrite insert_split, <- !app_assoc. cbn [app].
  pose proof (rec_refines pre L (F ++ NULL :: rest) st HL HLn) as H1.
  destruct (specf L) as [tl|]; cbn [refines] in H1; [|by rewrite H1].
  destruct H1 as (cl & L' & st1 & -> & HL' & Hvl). cbn [proc_bind fst snd].
  destruct (text_items F HF) as (lead & items & -> & Hlead & Hok).
  rewrite tokens_whitespace_app, tokens_items by done.
  assert (Hp : length pre + length L + 1 = length (pre ++ L' ++ [NULL])).
  { rewrite !length_app. simpl. lia. }
  destruct items as [|[t w] r].
  { cbn [map]. rewrite parse_redirection_file_name_empty; [done|].
    cbn [memory flat]. rewrite app_nil_r in HF |- *.
    replace (pre ++ L' ++ NULL :: lead ++ NULL :: rest)
      with ((pre ++ L' ++ [NULL]) ++ lead ++ NULL :: rest)
      by by rewrite <- !app_assoc.
    by rewrite (cstring_terminated' (pre ++ L' ++ [NULL]) lead rest). }
  cbn [map fst]. destruct Hok as (Ht0 & Ht & Hw & Hrw & Hr).
  assert (Hc : ∃ c tail, (w ++ flat r) ++ NULL :: rest = c :: tail ∧
                 (is_whitespace c = true ∨ c = NULL) ∧
                 terminate (w ++ flat r) ++ NULL :: rest = NULL :: tail).
  { destruct w as [|x w].
    - destruct r; [|by exfalso; apply Hrw]. exists NULL, rest. auto.
    - apply Forall_cons in Hw as [Hx _]. exists x, ((w ++ flat r) ++ NULL :: rest).
      cbn [app terminate]. auto. }
  destruct Hc as (c & tail & Ec & Hc & Eterm).
  assert (Ef : parse_redirection_file_name (length pre + length L + 1)
            (State (pre ++ L' ++ NULL :: (lead ++ flat ((t, w) :: r)) ++ NULL :: rest) st1)
          = Ret (length pre + length L + 1 + length lead,
                 State ((pre ++ L' ++ [NULL]) ++ lead ++ t ++ NULL :: tail) st1)).
  { rewrite Hp. rewrite <- (parse_redirection_file_name_token _ lead t c tail st1) by done.
    f_equal. f_equal. rewrite <- Ec. cbn [flat]. by flatten. }
  rewrite Ef. cbn [proc_bind fst snd].
  set (mode := if Ascii.eqb d "<" then (O_RDONLY, 0%Z) else (Z.lor O_WRONLY O_CREATE, 1%Z)).
  assert (Hview : ∀ pre2 rest2, length pre2 = length pre →
    view (pre2 ++ (L' ++ NULL :: lead ++ t ++ terminate (w ++ flat r)) ++ NULL :: rest2)
      (RedirectionCommand cl (length pre + length L + 1 + length lead) (fst mode) (snd mode))
    = Redirect tl t (fst mode) (snd mode)).
  { intros pre2 rest2 Hp2. cbn [view]. f_equal.
    - rewrite <- app_assoc. cbn [app]. by apply Hvl.
    - assert (∃ tail2, terminate (w ++ flat r) ++ NULL :: rest2 = NULL :: tail2)
        as [tail2 E2].
      { destruct (w ++ flat r); simpl; eauto. }
      replace (pre2 ++ (L' ++ NULL :: lead ++ t ++ terminate (w ++ flat r)) ++ NULL :: rest2)
        with ((pre2 ++ L' ++ NULL :: lead) ++ t ++ NULL :: tail2).
      2:{ rewrite <- E2. by flatten. }
      apply cstring_terminated'.
      + lengths. lia.
      + apply not_elem_of_app in HF as [_ HF]. cbn [flat] in HF.
        by apply not_elem_of_app in HF as [HF _]. }
  assert (Hlen : length (L' ++ NULL :: lead ++ t ++ terminate (w ++ flat r))
                 = length (L ++ d :: lead ++ flat ((t, w) :: r))).
  { cbn [flat]. lengths. lia. }
  assert (Hmem : (pre ++ L' ++ [NULL]) ++ lead ++ t ++ NULL :: tail
                 = pre ++ (L' ++ NULL :: lead ++ t ++ terminate (w ++ flat r)) ++ NULL :: rest).
  { rewrite <- Eterm. by flatten. }
  rewrite Hmem. subst mode.
  destruct (Ascii.eqb d "<"); cbn [fst snd] in Hview;
    eexists _, _, _; (split; [reflexivity|]); split; done.
Qed.

(** [parse_list] and [parse_pipe] at the symbol between [L] and [R]. *)
Lemma list_refines pre L d R rest st :
  NULL ∉ L → NULL ∉ R → length L ≤ n → length R ≤ n →
  refines
    (parse_list_body rec (length pre) (length pre + length L)
       (State (pre ++ (L ++ d :: R) ++ NULL :: rest) st))
    pre (L ++ d :: R) rest
    (match specf L with
     | Some l => match specf R with Some r => Some (Sequence l r) | None => None end
     | None => None
     end).
Proof.
  intros. unfold parse_list_body.
  replace (length pre + (length pre + length L - length pre))
    with (length pre + length L) by lia.
  replace (length pre + (length pre + length L - length pre + 1))
    with (length pre + length L + 1) by lia.
  by apply (split_refines create_list_command Sequence).
Qed.

Lemma pipe_refines pre L d R rest st :
  NULL ∉ L → NULL ∉ R → length L ≤ n → length R ≤ n →
  refines
    (parse_pipe_body rec (length pre) (length pre + length L)
       (State (pre ++ (L ++ d :: R) ++ NULL :: rest) st))
    pre (L ++ d :: R) rest
    (match specf L with
     | Some l => match specf R with Some r => Some (Piped l r) | None => None end
     | None => None
     end).
Proof.
  intros. unfold parse_pipe_body.
  replace (length pre + (length pre + length L - length pre))
    with (length pre + length L) by lia.
  replace (length pre + (length pre + length L - length pre + 1))
    with (length pre + length L + 1) by lia.
  by apply (split_refines create_pipe_command Piped).
Qed.

End step.

Lemma lookup_split (t : list ascii) c i :
  t !! i = Some c →
  ∃ L R, t = L ++ c :: R ∧ L = take i t ∧ R = drop (S i) t ∧ length L = i.
Proof.
  intros Hi. pose proof (lookup_lt_Some _ _ _ Hi).
  exists (take i t), (drop (S i) t). split; [by rewrite take_drop_middle|].
  do 2 (split; [done|]). rewrite length_take. lia.
Qed.

Lemma not_elem_of_split (L R : list ascii) c x :
  x ∉ L ++ c :: R → (x ∉ L) ∧ (x ∉ R).
Proof.
  intros H. apply not_elem_of_app in H as [HL H].
  by apply not_elem_of_cons in H as [_ HR].
Qed.

(** The parser on a text at any place of the buffer, against the tree of the
    text. *)
Lemma parse_command_upto_refines n : ∀ pre text rest st,
  NULL ∉ text → length text ≤ n →
  refines (parse_command_upto n (length pre) (State (pre ++ text ++ NULL :: rest) st))
    pre text rest (parse_text n text).
Proof.
  induction n as [|n IH]; intros pre text rest st Hn Hlen;
    cbn [parse_command_upto parse_text]; [by apply parse_execute_refines|].
  rewrite parse_command_body_eq.
  rewrite !(strrchr_last_index _ _ text rest) by by rewrite ?string_at_middle.
  rewrite string_at_middle, !strchr_first_index by done.
  pose proof (first_index_spec ";" text) as H1.
  destruct (first_index ";" text) as [i|].
  { destruct H1 as [Hi _].
    destruct (lookup_split _ _ _ Hi) as (L & R & -> & <- & <- & <-).
    apply not_elem_of_split in Hn as [HL HR].
    rewrite length_app in Hlen. cbn [length] in Hlen.
    apply (list_refines _ _ n IH); try done; lia. }
  clear H1. pose proof (first_index_spec "|" text) as H1.
  destruct (first_index "|" text) as [i|].
  { destruct H1 as [Hi _].
    destruct (lookup_split _ _ _ Hi) as (L & R & -> & <- & <- & <-).
    apply not_elem_of_split in Hn as [HL HR].
    rewrite length_app in Hlen. cbn [length] in Hlen.
    apply (pipe_refines _ _ n IH); try done; lia. }
  clear H1.
  assert (Hsplit : ∀ i c, text !! i = Some c →
    refines
      (parse_redirection_body (parse_command_upto n) (length pre) (length pre + i)
         (State (pre ++ text ++ NULL :: rest) st))
      pre text rest
      (match parse_text n (take i text) with
       | Some inner =>
           match tokens (drop (S i) text) with
           | file :: _ =>
               if Ascii.eqb (byte_at text i) "<"
               then Some (Redirect inner file O_RDONLY 0)
               else Some (Redirect inner file (Z.lor O_WRONLY O_CREATE) 1)
           | [] => None
           end
       | None => None
       end)).
  { intros i c Hi.
    destruct (lookup_split _ _ _ Hi) as (L & R & -> & <- & <- & <-).
    apply not_elem_of_split in Hn as [HL HR].
    rewrite length_app in Hlen. cbn [length] in Hlen.
    rewrite byte_at_middle. apply (redirection_refines _ _ n IH); try done; lia. }
  unfold redirection_index.
  pose proof (last_index_spec ">" text) as Hr.
  pose proof (last_index_spec "<" text) as Hl.
  destruct (last_index ">" text) as [r|], (last_index "<" text) as [l|];
    cbn [fmap option_fmap option_map].
  - destruct Hr as [Hr _], Hl as [Hl _].
    destruct (Nat.ltb_spec (length pre + r) (length pre + l)).
    + rewrite Nat.max_r by lia. by eapply Hsplit.
    + rewrite Nat.max_l by lia. by eapply Hsplit.
  - destruct Hr as [Hr _]. by eapply Hsplit.
  - destruct Hl as [Hl _]. by eapply Hsplit.
  - by apply parse_execute_refines.
Qed.

Lemma parse_command_refines pre text rest st :
  NULL ∉ text →
  refines (parse_command (length pre) (State (pre ++ text ++ NULL :: rest) st))
    pre text rest (parse_line text).
Proof.
  intros Hn. unfold parse_command, parse_line. cbn [memory].
  rewrite string_at_middle, strlen_terminated by done.
  by apply parse_command_upto_refines.
Qed.

Lemma parse_text_no_redirection n : ∀ text : list ascii,
  (">"%char ∉ text) → ("<"%char ∉ text) → is_Some (parse_text n text).
Proof.
  induction n as [|n IH]; intros text Hr Hl; cbn [parse_text]; [done|].
  assert (Hsub : ∀ i, is_Some (
    match parse_text n (take i text) with
    | Some l =>
        match parse_text n (drop (S i) text) with
        | Some r => Some (Sequence l r)
        | None => None
        end
    | None => None
    end) ∧ is_Some (
    match parse_text n (take i text) with
    | Some l =>
        match parse_text n (drop (S i) text) with
        | Some r => Some (Piped l r)
        | None => None
        end
    | None => None
    end)).
  { intros i.
    destruct (IH (take i text)) as [tl ->].
    1,2: intros H; by apply elem_of_take in H as (k & H%list_elem_of_lookup_2 & _).
    destruct (IH (drop (S i) text)) as [tr ->]; [| |done].
    all: intros H; apply list_elem_of_lookup in H as [k H];
      rewrite lookup_drop in H; by apply list_elem_of_lookup_2 in H. }
  destruct (first_index ";" text); [apply Hsub|].
  destruct (first_index "|" text); [apply Hsub|].
  unfold redirection_index.
  pose proof (last_index_spec ">" text) as Hr'.
  pose proof (last_index_spec "<" text) as Hl'.
  destruct (last_index ">" text).
  { destruct Hr' as [E _]. by apply list_elem_of_lookup_2 in E. }
  destruct (last_index "<" text); [|done].
  destruct Hl' as [E _]. by apply list_elem_of_lookup_2 in E.
Qed.

(** X11.  [parse_command] on a text anywhere in the buffer computes the tree
    of the text by recursive descent ([parse_line]): when the text has a tree
    the parser returns a node whose strings, read from the buffer, give that
    tree, and it has changed the buffer inside the text only; when it has none
    (a redirection without file name) the parser stops with its fatal
    error. *)
Theorem parse_command_parse_line pre text rest st :
  NULL ∉ text →
  match parse_line text with
  | Some t =>
      ∃ command text' st',
        parse_command (length pre) (State (pre ++ text ++ NULL :: rest) st) =
          Ret (command, State (pre ++ text' ++ NULL :: rest) st') ∧
        length text' = length text ∧
        view (pre ++ text' ++ NULL :: rest) command = t
  | None =>
      parse_command (length pre) (State (pre ++ text ++ NULL :: rest) st) =
        fatal (chars "Failed to parse filename for redirection")
  end.
Proof.
  intros Hn. pose proof (parse_command_refines pre text rest st Hn) as H.
  destruct (parse_line text) as [t|]; cbn [refines] in H; [|done].
  destruct H as (command & text' & st' & E & Hlen & Hv).
  exists command, text', st'. auto.
Qed.

Lemma parse_command_parse_line_witness :
(NULL ∉ chars "a | b > f") ∧
  match parse_line (chars "a | b > f") with
  | Some t =>
      ∃ command text' st',
        parse_command (length (chars "x"))
          (State (chars "x" ++ chars "a | b > f" ++ NULL :: chars "y") []) =
          Ret (command, State (chars "x" ++ text' ++ NULL :: chars "y") st') ∧
        length text' = length (chars "a | b > f") ∧
        view (chars "x" ++ text' ++ NULL :: chars "y") command = t
  | None =>
      parse_command (length (chars "x"))
        (State (chars "x" ++ chars "a | b > f" ++ NULL :: chars "y") []) =
        fatal (chars "Failed to parse filename for redirection")
  end.
Proof.
  assert (H : NULL ∉ chars "a | b > f") by not_in_literal.
  split; [exact H|].
  exact (parse_command_parse_line (chars "x") (chars "a | b > f") (chars "y") [] H).
Defined.

(** X12.  A text without ['<'] and ['>'] always parses: [parse_command]
    returns a node and never stops with the fatal error. *)
Theorem parse_command_without_redirection pre text rest st :
  NULL ∉ text → (">"%char ∉ text) → ("<"%char ∉ text) →
  ∃ command s',
    parse_command (length pre) (State (pre ++ text ++ NULL :: rest) st) =
      Ret (command, s').
Proof.
  intros Hn Hr Hl. pose proof (parse_command_refines pre text rest st Hn) as H.
  destruct (parse_text_no_redirection (length text) text Hr Hl) as [t Ht].
  unfold parse_line in H. rewrite Ht in H. cbn [refines] in H.
  destruct H as (command & text' & st' & E & _). eauto.
Qed.

Lemma parse_command_without_redirection_witness :
  ∃ command s',
    parse_command (length (chars "x"))
      (State (chars "x" ++ chars "a ; b | c" ++ NULL :: chars "y") []) =
      Ret (command, s').
Proof.
  apply (parse_command_without_redirection (chars "x") (chars "a ; b | c") (chars "y") []);
    not_in_literal.
Defined.



(** ** The caller's preparation of the line *)

Lemma last_cons_default (s : list ascii) x c : List.last (x :: s) c = List.last s x.
Proof.
  revert x c. induction s as [|y s IH]; intros x c; [done|].
  change (List.last (x :: y :: s) c) with (List.last (y :: s) c).
  by rewrite !IH.
Qed.

(** Copying the bytes [s] one byte down, over [c]. *)
Lemma memcpy_bytes_down (s : list ascii) : ∀ pre c rest,
  memcpy_bytes (pre ++ c :: s ++ rest) (length pre) (length pre + 1) (length s) =
    pre ++ s ++ List.last s c :: rest.
Proof.
  induction s as [|x s IH]; intros pre c rest; cbn [length memcpy_bytes]; [done|].
  assert (Hx : byte_at (pre ++ c :: (x :: s) ++ rest) (length pre + 1) = x).
  { rewrite (cons_middle c), app_assoc.
    replace (length pre + 1) with (length (pre ++ [c])) by (lengths; lia).
    apply byte_at_middle. }
  rewrite Hx, insert_middle.
  specialize (IH (pre ++ [x]) x rest).
  replace (length (pre ++ [x])) with (S (length pre)) in IH by (lengths; lia).
  replace (S (length pre + 1)) with (S (length pre) + 1) by lia.
  rewrite <- app_assoc in IH. cbn [app] in IH |- *. rewrite IH.
  rewrite last_cons_default. by flatten.
Qed.

Lemma remove_prefixed_whitespace_buffer_loop_strips (lead : list ascii) :
  ∀ n pre text rest st,
    Forall (λ c, is_whitespace c = true) lead → NULL ∉ text →
    (∀ c, head text = Some c → is_whitespace c = false) →
    length lead ≤ n →
    remove_prefixed_whitespace_buffer_loop n (length pre)
      (State (pre ++ lead ++ text ++ NULL :: rest) st) =
    Ret (tt, State (pre ++ text ++ replicate (length lead) NULL ++ NULL :: rest) st).
Proof.
  induction lead as [|c lead IH]; intros n pre text rest st Hl Hn Hh Hlen.
  - cbn [app length replicate]. destruct n as [|n]; [done|].
    cbn [remove_prefixed_whitespace_buffer_loop]. run.
    assert (E : is_whitespace (byte_at (pre ++ text ++ NULL :: rest) (length pre)) = false).
    { destruct text as [|x text]; cbn [app]; rewrite byte_at_middle; [done|].
      by apply Hh. }
    by rewrite E.
  - destruct n as [|n]; [simpl in Hlen; lia|].
    apply Forall_cons in Hl as [Hc Hl].
    cbn [remove_prefixed_whitespace_buffer_loop]. run. cbn [app].
    rewrite byte_at_middle, Hc. cbn [proc_bind fst snd]. unfold memcpy.
    cbn [memory stray proc_bind fst snd].
    rewrite string_at_middle.
    assert (Hs : strlen (c :: lead ++ text ++ NULL :: rest) = length ((lead ++ text) ++ [NULL])).
    { rewrite (app_comm_cons lead), app_assoc, strlen_terminated; [lengths; lia|].
      apply not_elem_of_app. split; [|done].
      apply whitespace_no_NULL. by constructor. }
    rewrite Hs.
    replace (pre ++ c :: lead ++ text ++ NULL :: rest)
      with (pre ++ c :: ((lead ++ text) ++ [NULL]) ++ rest) by by flatten.
    rewrite memcpy_bytes_down, List.last_last.
    replace (pre ++ ((lead ++ text) ++ [NULL]) ++ NULL :: rest)
      with (pre ++ lead ++ text ++ NULL :: NULL :: rest) by by flatten.
    rewrite IH; [|done..|simpl in Hlen; lia].
    do 3 f_equal. cbn [length replicate].
    change (NULL :: replicate (length lead) NULL) with (replicate (S (length lead)) NULL).
    rewrite replicate_S_end. by flatten.
Qed.

Lemma remove_prefixed_whitespace_buffer_eq pre lead text rest st :
  Forall (λ c, is_whitespace c = true) lead → NULL ∉ text →
  (∀ c, head text = Some c → is_whitespace c = false) →
  remove_prefixed_whitespace_buffer (length pre)
    (State (pre ++ lead ++ text ++ NULL :: rest) st) =
  Ret (tt, State (pre ++ text ++ replicate (length lead) NULL ++ NULL :: rest) st).
Proof.
  intros Hl Hn Hh. unfold remove_prefixed_whitespace_buffer. run.
  apply remove_prefixed_whitespace_buffer_loop_strips; try done.
  rewrite string_at_middle, app_assoc, strlen_terminated; [lengths; lia|].
  apply not_elem_of_app. split; [by apply whitespace_no_NULL|done].
Qed.

(** X14.  [remove_prefixed_whitespace_buffer] strips exactly the separators
    before the first other byte of the string: the rest of the string moves to
    the start of the buffer, followed by one terminator more for each
    separator removed, so that nothing behind the old terminator changes. *)
Theorem remove_prefixed_whitespace_buffer_strips pre lead text rest st :
  Forall (λ c, is_whitespace c = true) lead → NULL ∉ text →
  (∀ c, head text = Some c → is_whitespace c = false) →
  remove_prefixed_whitespace_buffer (length pre)
    (State (pre ++ lead ++ text ++ NULL :: rest) st) =
  Ret (tt, State (pre ++ text ++ replicate (length lead) NULL ++ NULL :: rest) st).
Proof. apply remove_prefixed_whitespace_buffer_eq. Qed.

Lemma remove_prefixed_whitespace_buffer_strips_witness :
  remove_prefixed_whitespace_buffer (length (chars "x"))
    (State (chars "x" ++ chars "  " ++ chars "ls -l" ++ NULL :: chars "y") []) =
  Ret (tt, State (chars "x" ++ chars "ls -l" ++
                  replicate (length (chars "  ")) NULL ++ NULL :: chars "y") []).
Proof.
  apply (remove_prefixed_whitespace_buffer_strips
           (chars "x") (chars "  ") (chars "ls -l") (chars "y") []).
  - by repeat constructor.
  - not_in_literal.
  - intros c [= <-]. reflexivity.
Defined.

Lemma replicate_cons_end (n : nat) (rest : list ascii) :
  replicate n NULL ++ NULL :: rest = NULL :: replicate n NULL ++ rest.
Proof.
  change (NULL :: replicate n NULL ++ rest) with (replicate (S n) NULL ++ rest).
  rewrite replicate_S_end. by flatten.
Qed.

Lemma terminate_buffer_eq pre text c rest st :
  NULL ∉ text → c ≠ NULL → length (text ++ [c]) < BUFFER_SIZE →
  terminate_buffer (length pre) (State (pre ++ (text ++ [c]) ++ NULL :: rest) st) =
  Ret (tt, State (pre ++ text ++ NULL :: NULL :: rest) st).
Proof.
  intros Hn Hc Hlen. unfold terminate_buffer. run.
  rewrite string_at_middle, strlen_terminated.
  2:{ apply not_elem_of_app. split; [done|].
      apply not_elem_of_cons. split; [congruence|apply not_elem_of_nil]. }
  assert (E : Z.to_nat ((Z.of_nat (length (text ++ [c])) - 1) mod 2 ^ 32) = length text).
  { rewrite length_app in Hlen |- *. cbn [length] in Hlen |- *.
    unfold BUFFER_SIZE in Hlen. rewrite Z.mod_small by lia. lia. }
  rewrite E. do 3 f_equal.
  replace (pre ++ (text ++ [c]) ++ NULL :: rest)
    with ((pre ++ text) ++ c :: NULL :: rest) by by flatten.
  rewrite <- length_app, insert_middle. by flatten.
Qed.

(** X15.  The preparation of [main] (lines 551-552) on an input line: the
    separators before the first other byte and the last byte of the line are
    removed; the parser is handed the text between them, and the buffer has
    kept its length. *)
Theorem prepare_line pre lead text c rest st :
  Forall (λ c, is_whitespace c = true) lead → NULL ∉ text → c ≠ NULL →
  (∀ x, head (text ++ [c]) = Some x → is_whitespace x = false) →
  length (text ++ [c]) < BUFFER_SIZE →
  prepare (length pre) (State (pre ++ lead ++ (text ++ [c]) ++ NULL :: rest) st) =
  Ret (tt, State (pre ++ text ++ NULL :: replicate (S (length lead)) NULL ++ rest) st).
Proof.
  intros Hl Hn Hc Hh Hlen. unfold prepare. run.
  rewrite <- app_assoc, (app_assoc text [c]).
  rewrite remove_prefixed_whitespace_buffer_eq; try done.
  2:{ apply not_elem_of_app. split; [done|].
      apply not_elem_of_cons. split; [congruence|apply not_elem_of_nil]. }
  cbn [proc_bind fst snd]. rewrite replicate_cons_end.
  by rewrite terminate_buffer_eq.
Qed.

Lemma prepare_line_witness :
  prepare (length (chars "x"))
    (State (chars "x" ++ chars "  " ++ (chars "ls -l" ++ ["010"%char]) ++ NULL :: chars "y") []) =
  Ret (tt, State (chars "x" ++ chars "ls -l" ++
                  NULL :: replicate (S (length (chars "  "))) NULL ++ chars "y") []).
Proof.
  apply (prepare_line (chars "x") (chars "  ") (chars "ls -l") "010"%char (chars "y") []).
  - by repeat constructor.
  - not_in_literal.
  - discriminate.
  - intros x [= <-]. reflexivity.
  - unfold BUFFER_SIZE. simpl. lia.
Defined.

(** X16.  On a line of separators only (the line feed alone, when the user
    presses return) the preparation leaves an empty string, and
    [terminate_buffer] computes the index 0 - 1 without sign: its store lands
    4294967295 bytes behind [buffer], not in the string. *)
Theorem prepare_blank_line pre lead rest st :
  Forall (λ c, is_whitespace c = true) lead →
  prepare (length pre) (State (pre ++ lead ++ NULL :: rest) st) =
  Ret (tt, State (<[length pre + Z.to_nat 4294967295 := NULL]>
                    (pre ++ NULL :: replicate (length lead) NULL ++ rest)) st).
Proof.
  intros Hl. unfold prepare. run.
  pose proof (remove_prefixed_whitespace_buffer_eq pre lead [] rest st Hl) as E.
  cbn [app] in E. rewrite E; [|apply not_elem_of_nil|done].
  cbn [proc_bind fst snd]. rewrite replicate_cons_end.
  unfold terminate_buffer. run. rewrite string_at_middle.
  change (strlen (NULL :: replicate (length lead) NULL ++ rest)) with 0.
  change ((Z.of_nat 0 - 1) mod 2 ^ 32)%Z with 4294967295%Z.
  reflexivity.
Qed.

Lemma prepare_blank_line_witness :
  prepare (length (chars "x")) (State (chars "x" ++ ["010"%char] ++ NULL :: chars "y") []) =
  Ret (tt, State (<[length (chars "x") + Z.to_nat 4294967295 := NULL]>
                    (chars "x" ++ NULL :: replicate (length ["010"%char]) NULL ++ chars "y")) []).
Proof.
  apply (prepare_blank_line (chars "x") ["010"%char] (chars "y") []).
  by repeat constructor.
Defined.
